(** * peg.h: UTF-8 codec, escape-sequence resolver and prefix trie

    A shallow embedding of the lexical primitives of [include/peg.h]
    (namespace [peg]) and the properties its specification states.

    Data model.
    - A byte ([char], [uint8_t]) is a [Z] in [0, 256): the bit pattern read
      as unsigned.  Wherever the source reads a (possibly signed) [char]
      it either casts it to [uint8_t] or masks it with a constant of at
      most [0x3F], so the sign of [char] never shows.
    - A [const char *] together with its [size_t] length is a [list Z]
      and a [nat]; [s8 + i] is [drop i s8], [s[i]] is [byte_at s i], and
      [std::string_view(p, len)] is [take len p].  Sizes and indices are
      [nat]: they are bounded by the length of an in-memory buffer, so
      the 64-bit wrap-around of [size_t] is never reached by an index.
    - [char32_t] is a [Z] in [0, 2^32); [int] is a [Z].  Arithmetic in
      [int] whose result leaves [-2^31, 2^31) is undefined in C++: the
      model leaves the result open ([int_overflow]), and the properties
      hold whatever it is.
    - [std::map<std::string, Info>] is a [gmap (list Z) Info].
    - A [while] or [for] loop whose number of iterations depends on the
      data is run by [while_], which takes fuel and answers [OutOfFuel]
      when the loop has not left after that many iterations. *)

From Stdlib Require Import ZArith List Lia Ascii String.
From stdpp Require Import base numbers list gmap.

Local Open Scope Z_scope.

(** ** Outcomes of running code *)

(** [std::runtime_error], with its message. *)
Inductive runtime_error : Type :=
| RuntimeError (what : string).

Inductive result (A : Type) : Type :=
| Ok (a : A)
| Throw (e : runtime_error)
| OutOfFuel.

Arguments Ok {A} a.
Arguments Throw {A} e.
Arguments OutOfFuel {A}.

#[global] Instance result_ret : MRet result := fun A a => Ok a.

#[global] Instance result_bind : MBind result := fun A B k m =>
  match m with
  | Ok a => k a
  | Throw e => Throw e
  | OutOfFuel => OutOfFuel
  end.

#[global] Instance result_fmap : FMap result := fun A B f m =>
  match m with
  | Ok a => Ok (f a)
  | Throw e => Throw e
  | OutOfFuel => OutOfFuel
  end.

(** [while (cond) body], at most [fuel] iterations. *)
Fixpoint while_ {S : Type} (fuel : nat) (cond : S -> bool)
    (body : S -> result S) (s : S) : result S :=
  match fuel with
  | O => OutOfFuel
  | Datatypes.S fuel' =>
      if cond s then s' ← body s; while_ fuel' cond body s'
      else Ok s
  end.

(** ** Bytes, characters and machine integers *)

(** [s[i]]; every read in the source is guarded by a bound check, so the
    0 given outside the list is never used when the length passed along
    is the length of the list. *)
Definition byte_at (s : list Z) (i : nat) : Z := nth i s 0.

(** [static_cast<char>(x)]: the low eight bits. *)
Definition to_char (x : Z) : Z := x mod 256.

(** One thing a build may compute where [int] arithmetic overflows: the
    wrap-around of two's-complement hardware.  Used to run examples. *)
Definition wrap_around (x : Z) : Z := (x + 2 ^ 31) mod 2 ^ 32 - 2 ^ 31.

Section Peg.

(** What [int] arithmetic gives when the result [x] does not fit an [int].
    The C++ standard leaves this undefined (signed overflow), and builds
    differ; nothing is assumed of it. *)
Context (int_overflow : Z -> Z).

(** A proof depends on [int_overflow] only where its statement does. *)
Set Default Proof Using "Type*".

(** [static_cast<int>(x)] of a value [x] computed in [int]: [x] when it
    fits, and what the build makes of the overflow when it does not. *)
Definition to_int (x : Z) : Z :=
  if (- 2 ^ 31 <=? x) && (x <? 2 ^ 31) then x else int_overflow x.

(** Conversion of an [int] to [char32_t] (value modulo 2^32). *)
Definition to_char32 (x : Z) : Z := x mod 2 ^ 32.

(** The code of a character literal, ['f'] and the like. *)
Definition chr (a : ascii) : Z := Z.of_N (N_of_ascii a).

(** The bytes of a string literal. *)
Fixpoint str (s : string) : list Z :=
  match s with
  | EmptyString => []
  | String a s' => chr a :: str s'
  end.

(** ** UTF-8 functions *)

Definition codepoint_length (s8 : list Z) (l : nat) : nat :=
  if negb (l =? 0)%nat then
    let b := byte_at s8 0 in
    if Z.land b 0x80 =? 0 then 1%nat
    else if (Z.land b 0xE0 =? 0xC0) && (2 <=? l)%nat then 2%nat
    else if (Z.land b 0xF0 =? 0xE0) && (3 <=? l)%nat then 3%nat
    else if (Z.land b 0xF8 =? 0xF0) && (4 <=? l)%nat then 4%nat
    else 0%nat
  else 0%nat.

(** State of the loop of [codepoint_count]: the index [i] and [count];
    [count] is a [size_t] that the loop increments without bound, so its
    wrap-around is written out. *)
Definition codepoint_count_cond (l : nat) (st : nat * Z) : bool :=
  (fst st <? l)%nat.

Definition codepoint_count_body (s8 : list Z) (l : nat) (st : nat * Z)
    : result (nat * Z) :=
  let '(i, count) := st in
  let count := (count + 1) mod 2 ^ 64 in
  Ok ((i + codepoint_length (drop i s8) (l - i))%nat, count).

Definition codepoint_count (fuel : nat) (s8 : list Z) (l : nat) : result Z :=
  st ← while_ fuel (codepoint_count_cond l) (codepoint_count_body s8 l)
         (0%nat, 0);
  Ok (snd st).

(** [encode_codepoint(cp, buff)]: the number of bytes written and the
    buffer after the writes. *)
Definition encode_codepoint_buff (cp : Z) (buff : list Z) : nat * list Z :=
  if cp <? 0x0080 then
    let buff := <[0%nat := to_char (Z.land cp 0x7F)]> buff in
    (1%nat, buff)
  else if cp <? 0x0800 then
    let buff := <[0%nat := to_char (Z.lor 0xC0 (Z.land (Z.shiftr cp 6) 0x1F))]> buff in
    let buff := <[1%nat := to_char (Z.lor 0x80 (Z.land cp 0x3F))]> buff in
    (2%nat, buff)
  else if cp <? 0xD800 then
    let buff := <[0%nat := to_char (Z.lor 0xE0 (Z.land (Z.shiftr cp 12) 0xF))]> buff in
    let buff := <[1%nat := to_char (Z.lor 0x80 (Z.land (Z.shiftr cp 6) 0x3F))]> buff in
    let buff := <[2%nat := to_char (Z.lor 0x80 (Z.land cp 0x3F))]> buff in
    (3%nat, buff)
  else if cp <? 0xE000 then
    (0%nat, buff)
  else if cp <? 0x10000 then
    let buff := <[0%nat := to_char (Z.lor 0xE0 (Z.land (Z.shiftr cp 12) 0xF))]> buff in
    let buff := <[1%nat := to_char (Z.lor 0x80 (Z.land (Z.shiftr cp 6) 0x3F))]> buff in
    let buff := <[2%nat := to_char (Z.lor 0x80 (Z.land cp 0x3F))]> buff in
    (3%nat, buff)
  else if cp <? 0x110000 then
    let buff := <[0%nat := to_char (Z.lor 0xF0 (Z.land (Z.shiftr cp 18) 0x7))]> buff in
    let buff := <[1%nat := to_char (Z.lor 0x80 (Z.land (Z.shiftr cp 12) 0x3F))]> buff in
    let buff := <[2%nat := to_char (Z.lor 0x80 (Z.land (Z.shiftr cp 6) 0x3F))]> buff in
    let buff := <[3%nat := to_char (Z.lor 0x80 (Z.land cp 0x3F))]> buff in
    (4%nat, buff)
  else
    (0%nat, buff).

(** The overload returning [std::string(buff, l)].  [char buff[4]] is
    uninitialised in the source: [junk] stands for what it holds, and
    [encode_codepoint_junk] below shows that none of it is returned. *)
Definition encode_codepoint_from (junk : list Z) (cp : Z) : list Z :=
  let '(l, buff) := encode_codepoint_buff cp junk in
  take l buff.

Definition encode_codepoint (cp : Z) : list Z :=
  encode_codepoint_from [0; 0; 0; 0] cp.

(** [decode_codepoint(s8, l, bytes, cp)]: [Some (bytes, cp)] when the
    source returns [true], [None] when it returns [false] (and leaves
    both out-parameters alone). *)
Definition decode_codepoint (s8 : list Z) (l : nat) : option (nat * Z) :=
  if negb (l =? 0)%nat then
    let b := byte_at s8 0 in
    if Z.land b 0x80 =? 0 then
      Some (1%nat, b)
    else if Z.land b 0xE0 =? 0xC0 then
      if (2 <=? l)%nat then
        Some (2%nat,
              Z.lor (Z.shiftl (Z.land (byte_at s8 0) 0x1F) 6)
                    (Z.land (byte_at s8 1) 0x3F))
      else None
    else if Z.land b 0xF0 =? 0xE0 then
      if (3 <=? l)%nat then
        Some (3%nat,
              Z.lor (Z.lor (Z.shiftl (Z.land (byte_at s8 0) 0x0F) 12)
                           (Z.shiftl (Z.land (byte_at s8 1) 0x3F) 6))
                    (Z.land (byte_at s8 2) 0x3F))
      else None
    else if Z.land b 0xF8 =? 0xF0 then
      if (4 <=? l)%nat then
        Some (4%nat,
              Z.lor (Z.lor (Z.lor (Z.shiftl (Z.land (byte_at s8 0) 0x07) 18)
                                  (Z.shiftl (Z.land (byte_at s8 1) 0x3F) 12))
                           (Z.shiftl (Z.land (byte_at s8 2) 0x3F) 6))
                    (Z.land (byte_at s8 3) 0x3F))
      else None
    else None
  else None.

(** ** resolve_escape_sequence *)

(** [is_hex(c, v)]: [Some v] when the source returns [true] after writing
    [v], [None] when it returns [false] and leaves [v] alone. *)
Definition is_hex (c : Z) : option Z :=
  if (chr "0" <=? c) && (c <=? chr "9") then Some (c - chr "0")
  else if (chr "a" <=? c) && (c <=? chr "f") then Some (c - chr "a" + 10)
  else if (chr "A" <=? c) && (c <=? chr "F") then Some (c - chr "A" + 10)
  else None.

Definition is_digit (c : Z) : option Z :=
  if (chr "0" <=? c) && (c <=? chr "9") then Some (c - chr "0")
  else None.

(** The two number loops differ in the digit test and the radix only.
    The state is [(ret, i)]; the loop condition calls the digit test,
    which also sets [val] for the body. *)
Definition parse_number_cond (digit : Z -> option Z) (s : list Z) (n : nat)
    (st : Z * nat) : bool :=
  (snd st <? n)%nat && bool_decide (is_Some (digit (byte_at s (snd st)))).

Definition parse_number_body (digit : Z -> option Z) (radix : Z) (s : list Z)
    (st : Z * nat) : result (Z * nat) :=
  let '(ret, i) := st in
  match digit (byte_at s i) with
  | Some val => Ok (to_int (ret * radix + val), S i)
  | None => Ok st
  end.

Definition parse_hex_number (s : list Z) (n i : nat) : result (Z * nat) :=
  while_ (S (n - i)) (parse_number_cond is_hex s n)
    (parse_number_body is_hex 16 s) (0, i).

Definition parse_octal_number (s : list Z) (n i : nat) : result (Z * nat) :=
  while_ (S (n - i)) (parse_number_cond is_digit s n)
    (parse_number_body is_digit 8 s) (0, i).

Definition invalid_escape : runtime_error :=
  RuntimeError "Invalid escape sequence...".

Definition resolve_cond (n : nat) (st : nat * list Z) : bool :=
  (fst st <? n)%nat.

(** One iteration of the loop of [resolve_escape_sequence]; the state is
    [(i, r)].  The [switch] is the chain of its cases in source order. *)
Definition resolve_body (s : list Z) (n : nat) (st : nat * list Z)
    : result (nat * list Z) :=
  let '(i, r) := st in
  let ch := byte_at s i in
  if ch =? chr "\" then
    let i := S i in
    if (i =? n)%nat then Throw invalid_escape
    else
      let c := byte_at s i in
      if c =? chr "f" then Ok (S i, r ++ [chr "012"])
      else if c =? chr "n" then Ok (S i, r ++ [chr "010"])
      else if c =? chr "r" then Ok (S i, r ++ [chr "013"])
      else if c =? chr "t" then Ok (S i, r ++ [chr "009"])
      else if c =? chr "v" then Ok (S i, r ++ [chr "011"])
      else if c =? chr "'" then Ok (S i, r ++ [chr "'"])
      else if c =? chr "034" then Ok (S i, r ++ [chr "034"])
      else if c =? chr "[" then Ok (S i, r ++ [chr "["])
      else if c =? chr "]" then Ok (S i, r ++ [chr "]"])
      else if c =? chr "\" then Ok (S i, r ++ [chr "\"])
      else if (c =? chr "x") || (c =? chr "u") then
        '(cp, i) ← parse_hex_number s n (S i);
        Ok (i, r ++ encode_codepoint (to_char32 cp))
      else
        '(cp, i) ← parse_octal_number s n i;
        Ok (i, r ++ encode_codepoint (to_char32 cp))
  else
    Ok (S i, r ++ [ch]).

Definition resolve_escape_sequence (s : list Z) (n : nat) : result (list Z) :=
  st ← while_ (S n) (resolve_cond n) (resolve_body s n) (0%nat, []);
  Ok (snd st).

(** ** Trie *)

Record Info : Type := { done : bool; match_ : bool }.

Record Trie : Type := { dic_ : gmap (list Z) Info }.

(** The body of the inner loop of the constructor, for one [len]. *)
Definition Trie_add_prefix (item : list Z) (dic : gmap (list Z) Info)
    (len : nat) : gmap (list Z) Info :=
  let last := (len =? length item)%nat in
  let sv := take len item in
  match dic !! sv with
  | None => <[sv := {| done := last; match_ := last |}]> dic
  | Some it =>
      if last then <[sv := {| done := done it; match_ := true |}]> dic
      else <[sv := {| done := false; match_ := match_ it |}]> dic
  end.

(** [for (size_t len = 1; len <= item.size(); len++)]. *)
Definition Trie_add_item (dic : gmap (list Z) Info) (item : list Z)
    : gmap (list Z) Info :=
  fold_left (Trie_add_prefix item) (seq 1 (length item)) dic.

(** [Trie(const std::vector<std::string> &items)]. *)
Definition Trie_of (items : list (list Z)) : Trie :=
  {| dic_ := fold_left Trie_add_item items ∅ |}.

(** The loop of [Trie::match]; the state is [(match_len, done, len)]. *)
Definition match_cond (text_len : nat) (st : nat * bool * nat) : bool :=
  let '(_, done, len) := st in
  negb done && (len <=? text_len)%nat.

Definition match_body (t : Trie) (text : list Z) (st : nat * bool * nat)
    : result (nat * bool * nat) :=
  let '(match_len, done', len) := st in
  let sv := take len text in
  match dic_ t !! sv with
  | None => Ok (match_len, true, S len)
  | Some it =>
      let match_len := if match_ it then len else match_len in
      let done' := if done it then true else done' in
      Ok (match_len, done', S len)
  end.

Definition Trie_match (t : Trie) (text : list Z) (text_len : nat)
    : result nat :=
  st ← while_ (S text_len) (match_cond text_len) (match_body t text)
         (0%nat, false, 1%nat);
  Ok (fst (fst st)).

(** ** The other overloads of [decode_codepoint], [decode] and
    [escape_characters] *)

(** [decode_codepoint(s8, l, cp)]: the number of bytes, 0 on failure, and
    what [cp] holds after the call (the argument [cp], left alone, on
    failure). *)
Definition decode_codepoint_bytes (s8 : list Z) (l : nat) (cp : Z) : nat * Z :=
  match decode_codepoint s8 l with
  | Some (bytes, cp') => (bytes, cp')
  | None => (0%nat, cp)
  end.

(** [decode_codepoint(s8, l)]: the code point, 0 on failure. *)
Definition decode_codepoint_value (s8 : list Z) (l : nat) : Z :=
  let cp := 0 in
  snd (decode_codepoint_bytes s8 l cp).

(** The inner loop of [decode]: [while (i < l && (s8[i] & 0xc0) == 0x80)
    i++]. *)
Definition decode_scan_cond (s8 : list Z) (l : nat) (i : nat) : bool :=
  (i <? l)%nat && (Z.land (byte_at s8 i) 0xc0 =? 0x80).

Definition decode_scan_body (i : nat) : result nat := Ok (S i).

(** The outer loop of [decode]; the state is [(i, out)]. *)
Definition decode_cond (l : nat) (st : nat * list Z) : bool :=
  (fst st <? l)%nat.

Definition decode_body (s8 : list Z) (l : nat) (st : nat * list Z)
    : result (nat * list Z) :=
  let '(i, out) := st in
  let beg := i in
  let i := S i in
  i ← while_ (S (l - i)) (decode_scan_cond s8 l) decode_scan_body i;
  Ok (i, out ++ [decode_codepoint_value (drop beg s8) (i - beg)]).

Definition decode (s8 : list Z) (l : nat) : result (list Z) :=
  st ← while_ (S l) (decode_cond l) (decode_body s8 l) (0%nat, []);
  Ok (snd st).

(** The body of the loop of [escape_characters], for one index [i]. *)
Definition escape_characters_body (s : list Z) (str_ : list Z) (i : nat)
    : list Z :=
  let c := byte_at s i in
  if c =? chr "012" then str_ ++ str "\f"
  else if c =? chr "010" then str_ ++ str "\n"
  else if c =? chr "013" then str_ ++ str "\r"
  else if c =? chr "009" then str_ ++ str "\t"
  else if c =? chr "011" then str_ ++ str "\v"
  else str_ ++ [c].

(** [for (size_t i = 0; i < n; i++)]. *)
Definition escape_characters (s : list Z) (n : nat) : list Z :=
  fold_left (escape_characters_body s) (seq 0 n) [].

(** * Specification vocabulary

    The tables, predicates and reference functions the properties below
    are stated with. *)

(** The classification table of [codepoint_length], as the
    specification words it: four rows that give a length, and 0 in every
    other case. *)
Inductive length_table (b : Z) (l : nat) : nat -> Prop :=
| Row1 : l <> 0%nat -> Z.land b 0x80 = 0 -> length_table b l 1
| Row2 : Z.land b 0xE0 = 0xC0 -> (2 <= l)%nat -> length_table b l 2
| Row3 : Z.land b 0xF0 = 0xE0 -> (3 <= l)%nat -> length_table b l 3
| Row4 : Z.land b 0xF8 = 0xF0 -> (4 <= l)%nat -> length_table b l 4
| Row0 :
    ~ (l <> 0%nat /\ Z.land b 0x80 = 0) ->
    ~ (Z.land b 0xE0 = 0xC0 /\ (2 <= l)%nat) ->
    ~ (Z.land b 0xF0 = 0xE0 /\ (3 <= l)%nat) ->
    ~ (Z.land b 0xF8 = 0xF0 /\ (4 <= l)%nat) ->
    length_table b l 0.

(** The bit patterns of UTF-8 bytes: [0xxxxxxx], [110xxxxx], [1110xxxx],
    [11110xxx] for a lead byte and [10xxxxxx] for a continuation byte. *)
Definition lead1 (b : Z) : Prop := Z.land b 0x80 = 0.
Definition lead2 (b : Z) : Prop := Z.land b 0xE0 = 0xC0.
Definition lead3 (b : Z) : Prop := Z.land b 0xF0 = 0xE0.
Definition lead4 (b : Z) : Prop := Z.land b 0xF8 = 0xF0.
Definition continuation (b : Z) : Prop := Z.land b 0xC0 = 0x80.
Definition is_byte (b : Z) : Prop := 0 <= b < 256.

(** A lead or continuation byte [tag | x] whose payload [x] fits under
    the tag: the byte is [tag + x], masking with [tag_mask] gives back the
    tag and masking with [payload_mask] the payload. *)
Definition tagged_ok (tag tag_mask payload_mask x : Z) : bool :=
  let b := to_char (Z.lor tag x) in
  (b =? tag + x) && (Z.land b tag_mask =? tag) &&
  (Z.land b payload_mask =? x) && negb (Z.land b 0x80 =? 0).

(** The payload of a code point, six bits at a time. *)
Definition sextet (cp k : Z) : Z := Z.land (Z.shiftr cp k) 0x3F.

(** What [encode_codepoint] returns, with the buffer writes carried out. *)
Definition encode_bytes (cp : Z) : list Z :=
  if cp <? 0x0080 then [to_char (Z.land cp 0x7F)]
  else if cp <? 0x0800 then
    [to_char (Z.lor 0xC0 (Z.land (Z.shiftr cp 6) 0x1F));
     to_char (Z.lor 0x80 (sextet cp 0))]
  else if (cp <? 0xD800) || (0xE000 <=? cp) && (cp <? 0x10000) then
    [to_char (Z.lor 0xE0 (Z.land (Z.shiftr cp 12) 0xF));
     to_char (Z.lor 0x80 (sextet cp 6));
     to_char (Z.lor 0x80 (sextet cp 0))]
  else if (0x10000 <=? cp) && (cp <? 0x110000) then
    [to_char (Z.lor 0xF0 (Z.land (Z.shiftr cp 18) 0x7));
     to_char (Z.lor 0x80 (sextet cp 12));
     to_char (Z.lor 0x80 (sextet cp 6));
     to_char (Z.lor 0x80 (sextet cp 0))]
  else [].

(** The boundary table of [encode_codepoint], as the specification
    words it: for each range of scalars the bytes of the encoding, that
    is the tag bits of the pattern and the bits of the scalar, six to a
    continuation byte and the rest in the lead byte. *)
Inductive encode_table (cp : Z) : list Z -> Prop :=
| Enc1 b0 :
    cp < 0x80 ->
    b0 = cp ->
    lead1 b0 -> is_byte b0 -> encode_table cp [b0]
| Enc2 b0 b1 :
    0x80 <= cp < 0x800 ->
    b0 = 0xC0 + cp / 64 -> b1 = 0x80 + cp mod 64 ->
    lead2 b0 -> continuation b1 ->
    Forall is_byte [b0; b1] -> encode_table cp [b0; b1]
| Enc3 b0 b1 b2 :
    0x800 <= cp < 0xD800 \/ 0xE000 <= cp < 0x10000 ->
    b0 = 0xE0 + cp / 4096 -> b1 = 0x80 + (cp / 64) mod 64 ->
    b2 = 0x80 + cp mod 64 ->
    lead3 b0 -> continuation b1 -> continuation b2 ->
    Forall is_byte [b0; b1; b2] -> encode_table cp [b0; b1; b2]
| Enc4 b0 b1 b2 b3 :
    0x10000 <= cp < 0x110000 ->
    b0 = 0xF0 + cp / 262144 -> b1 = 0x80 + (cp / 4096) mod 64 ->
    b2 = 0x80 + (cp / 64) mod 64 -> b3 = 0x80 + cp mod 64 ->
    lead4 b0 -> continuation b1 -> continuation b2 -> continuation b3 ->
    Forall is_byte [b0; b1; b2; b3] -> encode_table cp [b0; b1; b2; b3]
| EncSurrogate : 0xD800 <= cp < 0xE000 -> encode_table cp []
| EncBeyond : 0x110000 <= cp -> encode_table cp [].

(** The byte count the boundary table predicts for a valid scalar. *)
Definition encoded_length (v : Z) : nat :=
  if v <? 0x80 then 1 else if v <? 0x800 then 2
  else if v <? 0x10000 then 3 else 4.

(** The digits a number loop consumes: the longest run of digits the
    text starts with. *)
Fixpoint digit_run (digit : Z -> option Z) (s : list Z) : list Z :=
  match s with
  | c :: t =>
      match digit c with
      | Some _ => c :: digit_run digit t
      | None => []
      end
  | [] => []
  end.

(** The value the loop accumulates over a run, in [int] arithmetic
    (overflow included, whatever it gives). *)
Definition accumulate (digit : Z -> option Z) (radix : Z) (run : list Z)
    (ret : Z) : Z :=
  fold_left (fun ret c => to_int (ret * radix + default 0 (digit c))) run ret.

(** The number a digit string denotes. *)
Definition radix_value (digit : Z -> option Z) (radix : Z) (run : list Z) : Z :=
  fold_left (fun v c => v * radix + default 0 (digit c)) run 0.

(** The ten single-character escapes of the [switch]. *)
Definition simple_escape (c : Z) : option Z :=
  if c =? chr "f" then Some (chr "012")
  else if c =? chr "n" then Some (chr "010")
  else if c =? chr "r" then Some (chr "013")
  else if c =? chr "t" then Some (chr "009")
  else if c =? chr "v" then Some (chr "011")
  else if c =? chr "'" then Some (chr "'")
  else if c =? chr "034" then Some (chr "034")
  else if c =? chr "[" then Some (chr "[")
  else if c =? chr "]" then Some (chr "]")
  else if c =? chr "\" then Some (chr "\")
  else None.

(** The [case 'x': case 'u':] of the [switch]. *)
Definition hex_intro (c : Z) : bool := (c =? chr "x") || (c =? chr "u").

(** What one iteration does at the head of the text that is left: how
    many bytes it consumes and what it appends. *)
Definition escape_step (s : list Z) : result (nat * list Z) :=
  match s with
  | [] => Ok (0%nat, [])
  | c :: t =>
      if c =? chr "\" then
        match t with
        | [] => Throw invalid_escape
        | c' :: t' =>
            match simple_escape c' with
            | Some e => Ok (2%nat, [e])
            | None =>
                if hex_intro c' then
                  let run := digit_run is_hex t' in
                  Ok (2 + length run,
                      encode_codepoint (to_char32 (accumulate is_hex 16 run 0)))%nat
                else
                  let run := digit_run is_digit t in
                  Ok (1 + length run,
                      encode_codepoint (to_char32 (accumulate is_digit 8 run 0)))%nat
            end
        end
      else Ok (1%nat, [c])
  end.

(** The state of the loop at index [i] with output [r], after an
    iteration that consumed [fst st] bytes and appended [snd st]. *)
Definition advance (i : nat) (r : list Z) (st : nat * list Z) : nat * list Z :=
  ((i + fst st)%nat, r ++ snd st).

(** [resolve_escape_sequence] on a whole text. *)
Definition resolve (s : list Z) : result (list Z) :=
  resolve_escape_sequence s (length s).

(** The number of backslashes a text starts with, and ends with. *)
Fixpoint leading_backslashes (s : list Z) : nat :=
  match s with
  | c :: t => if c =? chr "\" then S (leading_backslashes t) else 0
  | [] => 0
  end.

Definition trailing_backslashes (s : list Z) : nat :=
  leading_backslashes (rev s).

(** The record the specification describes for a key [k], given the
    patterns [P]: a key is present when it is a non-empty prefix of a
    pattern; [match] says that it is a pattern, [done] that no pattern
    extends it. *)
Definition has_prefix (P : list (list Z)) (k : list Z) : bool :=
  existsb (fun p => bool_decide (k `prefix_of` p)) P.

Definition is_pattern (P : list (list Z)) (k : list Z) : bool :=
  existsb (fun p => bool_decide (p = k)) P.

Definition dead_end (P : list (list Z)) (k : list Z) : bool :=
  forallb (fun p => implb (bool_decide (k `prefix_of` p)) (bool_decide (p = k))) P.

Definition trie_spec (P : list (list Z)) (k : list Z) : option Info :=
  if bool_decide (k <> []) && has_prefix P k
  then Some {| done := dead_end P k; match_ := is_pattern P k |}
  else None.

(** What the inner loop leaves at a key it visits, from what was there. *)
Definition visit (item : list Z) (old : option Info) (k : list Z) : Info :=
  let last := (length k =? length item)%nat in
  match old with
  | None => {| done := last; match_ := last |}
  | Some it =>
      if last then {| done := done it; match_ := true |}
      else {| done := false; match_ := match_ it |}
  end.

(** What the loop of [match] knows after it has looked at the prefixes
    of [s] shorter than [len]: [match_len] is the longest pattern among
    them, and once [done] is set no longer prefix of [s] is a pattern. *)
Definition match_inv (P : list (list Z)) (s : list Z)
    (st : nat * bool * nat) : Prop :=
  let '(match_len, d, len) := st in
  (1 <= len <= S (length s))%nat /\ (match_len < len)%nat /\
  (match_len = 0%nat \/ take match_len s ∈ P) /\
  (forall p, p ∈ P -> p `prefix_of` s -> (length p < len)%nat ->
     (length p <= match_len)%nat) /\
  (d = true -> forall p, p ∈ P -> p `prefix_of` s -> (length p < len)%nat).

(** A Unicode scalar value: the domain on which [encode_codepoint]
    produces bytes. *)
Definition valid_scalar (v : Z) : Prop :=
  0 <= v <= 0x10FFFF /\ ~ (0xD800 <= v <= 0xDFFF).

(** The UTF-8 text of a sequence of scalars: their encodings, one after
    the other. *)
Definition utf8 (vs : list Z) : list Z := concat (map encode_codepoint vs).

(** The continuation bytes a text starts with. *)
Fixpoint continuation_run (s : list Z) : list Z :=
  match s with
  | b :: t => if Z.land b 0xC0 =? 0x80 then b :: continuation_run t else []
  | [] => []
  end.

(** The number of bytes of a text that are no continuation bytes. *)
Fixpoint starts (s : list Z) : nat :=
  match s with
  | b :: t => if Z.land b 0xC0 =? 0x80 then starts t else S (starts t)
  | [] => 0
  end.

(** What [escape_characters] writes for one character. *)
Definition escape_char (c : Z) : list Z :=
  if c =? chr "012" then str "\f"
  else if c =? chr "010" then str "\n"
  else if c =? chr "013" then str "\r"
  else if c =? chr "009" then str "\t"
  else if c =? chr "011" then str "\v"
  else [c].

(** The five characters [escape_characters] replaces: form feed, line
    feed, carriage return, tab and vertical tab. *)
Definition is_control (c : Z) : Prop := 9 <= c <= 13.

(** * Properties *)

(** ** The result monad *)

Lemma bind_Ok {A B : Type} (a : A) (k : A -> result B) : (Ok a ≫= k) = k a.
Proof. reflexivity. Qed.

Lemma bind_Throw {A B : Type} (e : runtime_error) (k : A -> result B) :
  (Throw e ≫= k) = Throw e.
Proof. reflexivity. Qed.

Lemma fmap_Ok {A B : Type} (f : A -> B) (a : A) : f <$> Ok a = Ok (f a).
Proof. reflexivity. Qed.

Lemma fmap_Throw {A B : Type} (f : A -> B) (e : runtime_error) :
  f <$> (Throw e : result A) = Throw e.
Proof. reflexivity. Qed.

Lemma fmap_compose_result {A B C : Type} (f : A -> B) (g : B -> C)
    (m : result A) : g <$> (f <$> m) = (g ∘ f) <$> m.
Proof. by destruct m. Qed.

Lemma fmap_ext_result {A B : Type} (f g : A -> B) (m : result A) :
  (forall a, f a = g a) -> f <$> m = g <$> m.
Proof. intros H. destruct m; cbn; [by rewrite H|done|done]. Qed.

(** ** The loop combinator *)

Section While.
Context {S : Type} (cond : S -> bool) (body : S -> result S).

Lemma while_step fuel s :
  while_ (Datatypes.S fuel) cond body s =
    if cond s then s' ← body s; while_ fuel cond body s' else Ok s.
Proof. reflexivity. Qed.

(** More fuel never changes an answer that was reached. *)
Lemma while_fuel_mono fuel fuel' s :
  (fuel <= fuel')%nat ->
  while_ fuel cond body s <> OutOfFuel ->
  while_ fuel' cond body s = while_ fuel cond body s.
Proof.
  revert fuel' s. induction fuel as [|fuel IH]; intros fuel' s Hle Hne.
  - by destruct Hne.
  - destruct fuel' as [|fuel']; [lia|].
    rewrite !while_step in *. destruct (cond s); [|done].
    destruct (body s) as [s'| |]; simpl in *; try done.
    apply IH; [lia|done].
Qed.

(** A loop whose body lowers a measure (or throws) leaves within
    [measure] iterations. *)
Lemma while_terminates (I : S -> Prop) (measure : S -> nat) :
  (forall s, I s -> cond s = true ->
     (exists e, body s = Throw e) \/
     (exists s', body s = Ok s' /\ I s' /\ (measure s' < measure s)%nat)) ->
  forall fuel s, I s -> (measure s < fuel)%nat ->
    while_ fuel cond body s <> OutOfFuel.
Proof.
  intros Hbody. induction fuel as [|fuel IH]; intros s HI Hm; [lia|].
  rewrite while_step. destruct (cond s) eqn:Hc; [|done].
  destruct (Hbody s HI Hc) as [[e ->]|(s' & -> & HI' & Hlt)]; [done|].
  simpl. apply IH; [done|lia].
Qed.

(** An invariant of the body holds when the loop leaves, and the
    condition is false then. *)
Lemma while_invariant (I : S -> Prop) :
  (forall s s', I s -> cond s = true -> body s = Ok s' -> I s') ->
  forall fuel s s', I s -> while_ fuel cond body s = Ok s' ->
    I s' /\ cond s' = false.
Proof.
  intros Hbody. induction fuel as [|fuel IH]; intros s s' HI Hw; [done|].
  rewrite while_step in Hw. destruct (cond s) eqn:Hc.
  - destruct (body s) as [s1| |] eqn:Hb; simpl in Hw; try done.
    eapply IH; [|done]. eauto.
  - by inversion Hw; subst.
Qed.
End While.

(** ** UTF-8: [codepoint_length] *)

Lemma land_mask_sub (b m1 m2 : Z) :
  Z.land m1 m2 = m2 -> Z.land b m2 = Z.land (Z.land b m1) m2.
Proof. intros H. by rewrite <- Z.land_assoc, H. Qed.

(** The four rows exclude one another: a byte has one lead pattern. *)
Lemma lead_patterns_exclusive (b : Z) :
  (Z.land b 0xE0 = 0xC0 -> Z.land b 0x80 = 0x80) /\
  (Z.land b 0xF0 = 0xE0 -> Z.land b 0x80 = 0x80 /\ Z.land b 0xE0 = 0xE0) /\
  (Z.land b 0xF8 = 0xF0 ->
     Z.land b 0x80 = 0x80 /\ Z.land b 0xE0 = 0xE0 /\ Z.land b 0xF0 = 0xF0).
Proof.
  split; [|split]; intros H; repeat split.
  - rewrite (land_mask_sub b 0xE0 0x80), H; done.
  - rewrite (land_mask_sub b 0xF0 0x80), H; done.
  - rewrite (land_mask_sub b 0xF0 0xE0), H; done.
  - rewrite (land_mask_sub b 0xF8 0x80), H; done.
  - rewrite (land_mask_sub b 0xF8 0xE0), H; done.
  - rewrite (land_mask_sub b 0xF8 0xF0), H; done.
Qed.

Lemma codepoint_length_in_table (s8 : list Z) (l : nat) :
  length_table (byte_at s8 0) l (codepoint_length s8 l).
Proof.
  unfold codepoint_length. set (b := byte_at s8 0).
  destruct (Nat.eqb_spec l 0) as [->|Hl]; cbn [negb].
  { apply Row0; intros [? ?]; lia. }
  destruct (Z.eqb_spec (Z.land b 0x80) 0) as [H1|H1]; [by apply Row1|].
  destruct (Z.eqb_spec (Z.land b 0xE0) 0xC0) as [H2|H2],
           (Nat.leb_spec 2 l) as [L2|L2]; cbn [andb]; try (by apply Row2).
  all: destruct (Z.eqb_spec (Z.land b 0xF0) 0xE0) as [H3|H3],
                (Nat.leb_spec 3 l) as [L3|L3]; cbn [andb]; try (by apply Row3).
  all: destruct (Z.eqb_spec (Z.land b 0xF8) 0xF0) as [H4|H4],
                (Nat.leb_spec 4 l) as [L4|L4]; cbn [andb]; try (by apply Row4).
  all: apply Row0; intros [? ?]; try lia; try congruence.
Qed.

Lemma length_table_functional (b : Z) (l n m : nat) :
  length_table b l n -> length_table b l m -> n = m.
Proof.
  clear int_overflow.
  pose proof (lead_patterns_exclusive b) as (E2 & E3 & E4).
  intros Hn Hm.
  destruct Hn, Hm; try reflexivity; exfalso;
    repeat match goal with
           | H : ~ (_ /\ _) |- _ => try (apply H; split; assumption); clear H
           end;
    repeat match goal with
           | H : Z.land b 0xE0 = 0xC0 |- _ => specialize (E2 H)
           | H : Z.land b 0xF0 = 0xE0 |- _ => specialize (E3 H)
           | H : Z.land b 0xF8 = 0xF0 |- _ => specialize (E4 H)
           end;
    intuition congruence.
Qed.

(** C7: [codepoint_length (bytes, available_len)] is the number the
    classification table gives: 1 for a first byte with [b & 0x80 == 0]
    (the buffer not empty), 2, 3 or 4 for the lead patterns [0xC0], [0xE0],
    [0xF0] with that many bytes available, and 0 in every other case
    (empty buffer, truncated sequence, no lead pattern). *)
Theorem codepoint_length_table (s8 : list Z) (l n : nat) :
  length_table (byte_at s8 0) l n <-> codepoint_length s8 l = n.
Proof.
  split.
  - intros H. eapply length_table_functional; [apply codepoint_length_in_table|done].
  - intros <-. apply codepoint_length_in_table.
Qed.

(** ** UTF-8: [encode_codepoint] and [decode_codepoint] *)

(** Facts about one byte are settled by running through its payloads. *)
Lemma forall_below (P : Z -> bool) (n : nat) :
  forallb P (map Z.of_nat (seq 0 n)) = true ->
  forall x, 0 <= x < Z.of_nat n -> P x = true.
Proof.
  intros H x Hx. rewrite forallb_forall in H. apply H.
  apply in_map_iff. exists (Z.to_nat x). split; [lia|].
  apply in_seq. lia.
Qed.

Lemma ascii_byte (x : Z) :
  0 <= x < 128 ->
  let b := to_char (Z.land x 0x7F) in
  b = x /\ Z.land b 0x80 = 0.
Proof.
  intros Hx.
  pose proof (forall_below
    (fun x => let b := to_char (Z.land x 0x7F) in
              (b =? x) && (Z.land b 0x80 =? 0)) 128 eq_refl x Hx) as H.
  cbv zeta in *. apply andb_prop in H as [H1 H2]. split; lia.
Qed.

Lemma tagged_byte (tag tag_mask payload_mask : Z) (n : nat) :
  forallb (tagged_ok tag tag_mask payload_mask) (map Z.of_nat (seq 0 n)) = true ->
  forall x, 0 <= x < Z.of_nat n ->
    let b := to_char (Z.lor tag x) in
    b = tag + x /\ Z.land b tag_mask = tag /\ Z.land b payload_mask = x /\
    Z.land b 0x80 <> 0.
Proof.
  intros Hall x Hx. pose proof (forall_below _ n Hall x Hx) as H.
  unfold tagged_ok in H. cbv zeta in *.
  repeat (apply andb_prop in H as [H ?]).
  destruct (Z.eqb_spec (Z.land (to_char (Z.lor tag x)) 0x80) 0); [done|].
  repeat split; try lia.
Qed.

Lemma lead2_byte (x : Z) :
  0 <= x < 32 ->
  let b := to_char (Z.lor 0xC0 x) in
  b = 0xC0 + x /\ Z.land b 0xE0 = 0xC0 /\ Z.land b 0x1F = x /\ Z.land b 0x80 <> 0.
Proof. apply (tagged_byte 0xC0 0xE0 0x1F 32). by vm_compute. Qed.

Lemma lead3_byte (x : Z) :
  0 <= x < 16 ->
  let b := to_char (Z.lor 0xE0 x) in
  b = 0xE0 + x /\ Z.land b 0xF0 = 0xE0 /\ Z.land b 0x0F = x /\ Z.land b 0x80 <> 0.
Proof. apply (tagged_byte 0xE0 0xF0 0x0F 16). by vm_compute. Qed.

Lemma lead4_byte (x : Z) :
  0 <= x < 8 ->
  let b := to_char (Z.lor 0xF0 x) in
  b = 0xF0 + x /\ Z.land b 0xF8 = 0xF0 /\ Z.land b 0x07 = x /\ Z.land b 0x80 <> 0.
Proof. apply (tagged_byte 0xF0 0xF8 0x07 8). by vm_compute. Qed.

Lemma continuation_byte (x : Z) :
  0 <= x < 64 ->
  let b := to_char (Z.lor 0x80 x) in
  b = 0x80 + x /\ Z.land b 0xC0 = 0x80 /\ Z.land b 0x3F = x /\ Z.land b 0x80 <> 0.
Proof. apply (tagged_byte 0x80 0xC0 0x3F 64). by vm_compute. Qed.

(** Masks and shifts as arithmetic. *)
Lemma land_low_bits (x k : Z) :
  0 <= k -> Z.land x (2 ^ k - 1) = x mod 2 ^ k.
Proof.
  intros Hk. rewrite <- Z.land_ones by done. f_equal.
  rewrite Z.ones_equiv. lia.
Qed.

Lemma lor_disjoint (a b k : Z) :
  0 <= k -> 0 <= b < 2 ^ k -> Z.lor (a * 2 ^ k) b = a * 2 ^ k + b.
Proof.
  intros Hk Hb. symmetry. apply Z.add_nocarry_lor.
  apply Z.bits_inj'. intros n Hn.
  rewrite Z.land_spec, Z.bits_0.
  destruct (Z.ltb_spec n k) as [Hlt|Hge].
  - rewrite Z.mul_pow2_bits_low by lia. done.
  - destruct (Z.eq_dec b 0) as [->|Hb0].
    + rewrite Z.bits_0. apply andb_false_r.
    + rewrite (Z.bits_above_log2 b n), andb_false_r; [done|lia|].
      apply Z.log2_lt_pow2; [lia|].
      eapply Z.lt_le_trans; [apply Hb|].
      apply Z.pow_le_mono_r; lia.
Qed.

Lemma shiftr_land_mod (cp s k m : Z) :
  0 <= s -> 0 <= k -> m = 2 ^ k - 1 ->
  Z.land (Z.shiftr cp s) m = (cp / 2 ^ s) mod 2 ^ k.
Proof.
  intros Hs Hk ->. by rewrite land_low_bits, Z.shiftr_div_pow2.
Qed.

Ltac case_ltb :=
  repeat match goal with
         | |- context [?a <? ?b] => destruct (Z.ltb_spec a b)
         | |- context [?a <=? ?b] => destruct (Z.leb_spec a b)
         end.

Lemma encode_codepoint_from_bytes (junk : list Z) (cp : Z) :
  length junk = 4%nat -> encode_codepoint_from junk cp = encode_bytes cp.
Proof.
  intros Hlen.
  destruct junk as [|j0 [|j1 [|j2 [|j3 [|? ?]]]]]; try discriminate.
  unfold encode_codepoint_from, encode_codepoint_buff, encode_bytes, sextet.
  rewrite Z.shiftr_0_r.
  case_ltb; try reflexivity; lia.
Qed.

(** The uninitialised [buff] does not show in the result. *)
Lemma encode_codepoint_junk (junk : list Z) (cp : Z) :
  length junk = 4%nat -> encode_codepoint_from junk cp = encode_codepoint cp.
Proof.
  intros H. unfold encode_codepoint.
  by rewrite !encode_codepoint_from_bytes.
Qed.

Lemma encode_codepoint_bytes (cp : Z) : encode_codepoint cp = encode_bytes cp.
Proof. by apply encode_codepoint_from_bytes. Qed.

Lemma sextet_range (cp k : Z) : 0 <= k -> 0 <= sextet cp k < 64.
Proof.
  intros Hk. unfold sextet.
  rewrite (shiftr_land_mod cp k 6) by (lia || reflexivity).
  apply Z.mod_pos_bound. lia.
Qed.

Lemma sextet_value (cp k : Z) :
  0 <= k -> sextet cp k = (cp / 2 ^ k) mod 64.
Proof.
  intros Hk. unfold sextet.
  by rewrite (shiftr_land_mod cp k 6) by (lia || reflexivity).
Qed.

Lemma continuation_sextet (cp k : Z) :
  0 <= k ->
  let b := to_char (Z.lor 0x80 (sextet cp k)) in
  b = 0x80 + sextet cp k /\ continuation b /\ Z.land b 0x3F = sextet cp k /\
  Z.land b 0x80 <> 0 /\ is_byte b.
Proof.
  intros Hk. pose proof (sextet_range cp k Hk) as Hr.
  destruct (continuation_byte _ Hr) as (E & C & P & N).
  cbv zeta. unfold continuation, is_byte. rewrite E in *. repeat split; try done; lia.
Qed.

Lemma lead2_of (cp : Z) :
  0 <= cp < 0x800 ->
  let b := to_char (Z.lor 0xC0 (Z.land (Z.shiftr cp 6) 0x1F)) in
  b = 0xC0 + cp / 64 /\ lead2 b /\ Z.land b 0x1F = cp / 64 /\
  Z.land b 0x80 <> 0 /\ is_byte b.
Proof.
  intros Hcp. cbv zeta.
  rewrite (shiftr_land_mod cp 6 5) by (lia || reflexivity).
  assert (cp / 2 ^ 6 mod 2 ^ 5 = cp / 64) as ->.
  { change (2 ^ 6) with 64. change (2 ^ 5) with 32.
    apply Z.mod_small. split; [apply Z.div_pos; lia|].
    apply Z.div_lt_upper_bound; lia. }
  assert (0 <= cp / 64 < 32) as Hr.
  { split; [apply Z.div_pos; lia|apply Z.div_lt_upper_bound; lia]. }
  destruct (lead2_byte _ Hr) as (E & C & P & N).
  unfold lead2, is_byte. rewrite E in *. repeat split; try done; lia.
Qed.

Lemma lead3_of (cp : Z) :
  0 <= cp < 0x10000 ->
  let b := to_char (Z.lor 0xE0 (Z.land (Z.shiftr cp 12) 0xF)) in
  b = 0xE0 + cp / 4096 /\ lead3 b /\ Z.land b 0x0F = cp / 4096 /\
  Z.land b 0x80 <> 0 /\ is_byte b.
Proof.
  intros Hcp. cbv zeta.
  rewrite (shiftr_land_mod cp 12 4) by (lia || reflexivity).
  assert (cp / 2 ^ 12 mod 2 ^ 4 = cp / 4096) as ->.
  { change (2 ^ 12) with 4096. change (2 ^ 4) with 16.
    apply Z.mod_small. split; [apply Z.div_pos; lia|].
    apply Z.div_lt_upper_bound; lia. }
  assert (0 <= cp / 4096 < 16) as Hr.
  { split; [apply Z.div_pos; lia|apply Z.div_lt_upper_bound; lia]. }
  destruct (lead3_byte _ Hr) as (E & C & P & N).
  unfold lead3, is_byte. rewrite E in *. repeat split; try done; lia.
Qed.

Lemma lead4_of (cp : Z) :
  0 <= cp < 0x200000 ->
  let b := to_char (Z.lor 0xF0 (Z.land (Z.shiftr cp 18) 0x7)) in
  b = 0xF0 + cp / 262144 /\ lead4 b /\ Z.land b 0x07 = cp / 262144 /\
  Z.land b 0x80 <> 0 /\ is_byte b.
Proof.
  intros Hcp. cbv zeta.
  rewrite (shiftr_land_mod cp 18 3) by (lia || reflexivity).
  assert (cp / 2 ^ 18 mod 2 ^ 3 = cp / 262144) as ->.
  { change (2 ^ 18) with 262144. change (2 ^ 3) with 8.
    apply Z.mod_small. split; [apply Z.div_pos; lia|].
    apply Z.div_lt_upper_bound; lia. }
  assert (0 <= cp / 262144 < 8) as Hr.
  { split; [apply Z.div_pos; lia|apply Z.div_lt_upper_bound; lia]. }
  destruct (lead4_byte _ Hr) as (E & C & P & N).
  unfold lead4, is_byte. rewrite E in *. repeat split; try done; lia.
Qed.

Lemma continuation_of (cp k : Z) :
  0 <= k ->
  let b := to_char (Z.lor 0x80 (sextet cp k)) in
  b = 0x80 + (cp / 2 ^ k) mod 64 /\ continuation b /\ is_byte b.
Proof.
  intros Hk. destruct (continuation_sextet cp k Hk) as (E & C & _ & _ & B).
  cbv zeta in *. by rewrite <- sextet_value.
Qed.

(** The table gives every scalar one byte string. *)
Lemma encode_table_functional (cp : Z) (bytes bytes' : list Z) :
  encode_table cp bytes -> encode_table cp bytes' -> bytes = bytes'.
Proof.
  intros H H'. destruct H, H'; subst; try reflexivity; lia.
Qed.

Lemma encode_codepoint_in_table (cp : Z) :
  0 <= cp < 2 ^ 32 -> encode_table cp (encode_codepoint cp).
Proof.
  intros Hcp. rewrite encode_codepoint_bytes. unfold encode_bytes.
  destruct (continuation_of cp 0) as (E0 & C0 & B0); [lia|].
  destruct (continuation_of cp 6) as (E6 & C6 & B6); [lia|].
  destruct (continuation_of cp 12) as (E12 & C12 & B12); [lia|].
  cbv zeta in E0, E6, E12, C0, C6, C12, B0, B6, B12.
  change (2 ^ 0) with 1 in E0. rewrite Z.div_1_r in E0.
  change (2 ^ 6) with 64 in E6. change (2 ^ 12) with 4096 in E12.
  destruct (Z.ltb_spec cp 0x80) as [H1|H1].
  { destruct (ascii_byte cp) as [E L]; [lia|].
    cbv zeta in E, L. apply Enc1; [done|done|done|]. unfold is_byte.
    rewrite E. lia. }
  destruct (Z.ltb_spec cp 0x800) as [H2|H2].
  { destruct (lead2_of cp) as (E & L & _ & _ & B); [lia|]. cbv zeta in E, L, B.
    apply Enc2; auto; lia. }
  destruct (Z.ltb_spec cp 0xD800) as [H3|H3],
           (Z.leb_spec 0xE000 cp) as [H4|H4],
           (Z.ltb_spec cp 0x10000) as [H5|H5]; cbn [orb andb]; try lia.
  1,2: destruct (lead3_of cp) as (E & L & _ & _ & B); [lia|];
       cbv zeta in E, L, B; apply Enc3; auto; lia.
  - destruct (Z.leb_spec 0x10000 cp), (Z.ltb_spec cp 0x110000);
      cbn [andb]; try lia.
    + destruct (lead4_of cp) as (E & L & _ & _ & B); [lia|].
      cbv zeta in E, L, B. apply Enc4; auto; lia.
    + apply EncBeyond. lia.
  - destruct (Z.leb_spec 0x10000 cp), (Z.ltb_spec cp 0x110000);
      cbn [andb]; try lia.
    apply EncSurrogate. lia.
Qed.

(** C4: [encode_codepoint] maps every 32-bit scalar to the UTF-8 bytes of
    the boundary table, and to nothing else: below [0x80] the one byte
    [0xxxxxxx] that is the scalar; below [0x800] two bytes
    [110xxxxx 10xxxxxx]; below [0xD800], and from [0xE000] below [0x10000],
    three bytes [1110xxxx 10xxxxxx 10xxxxxx]; below [0x110000] four bytes
    [11110xxx 10xxxxxx 10xxxxxx 10xxxxxx], the [x] being the bits of the
    scalar, the low six in the last byte; the empty result on
    [[0xD800, 0xE000)] and from [0x110000] on. *)
Theorem encode_codepoint_table (cp : Z) :
  0 <= cp < 2 ^ 32 ->
  encode_table cp (encode_codepoint cp) /\
  forall bytes, encode_table cp bytes <-> encode_codepoint cp = bytes.
Proof.
  intros Hcp. pose proof (encode_codepoint_in_table cp Hcp) as Hin.
  split; [done|]. intros bytes. split.
  - intros H. by apply (encode_table_functional cp).
  - by intros <-.
Qed.

Lemma encode_codepoint_table_witness :
  encode_table 0x20AC (encode_codepoint 0x20AC) /\
  forall bytes, encode_table 0x20AC bytes <-> encode_codepoint 0x20AC = bytes.
Proof. apply (encode_codepoint_table 0x20AC). lia. Defined.

Example encode_table_euro : encode_table 0x20AC [0xE2; 0x82; 0xAC].
Proof. apply Enc3; try reflexivity; [lia|by repeat constructor]. Qed.

(** [decode_codepoint] on a buffer whose first byte has a given lead
    pattern. *)
Lemma decode_lead1 (b0 : Z) (rest : list Z) (l : nat) :
  lead1 b0 -> (1 <= l)%nat ->
  decode_codepoint (b0 :: rest) l = Some (1%nat, b0).
Proof.
  unfold lead1, decode_codepoint. intros H1 Hl. cbn [byte_at nth].
  destruct (Nat.eqb_spec l 0); [lia|]. cbn [negb].
  by destruct (Z.eqb_spec (Z.land b0 0x80) 0).
Qed.

Lemma decode_lead2 (b0 b1 : Z) (rest : list Z) (l : nat) :
  lead2 b0 -> (2 <= l)%nat ->
  decode_codepoint (b0 :: b1 :: rest) l =
    Some (2%nat, Z.lor (Z.shiftl (Z.land b0 0x1F) 6) (Z.land b1 0x3F)).
Proof.
  unfold lead2, decode_codepoint. intros H2 Hl. cbn [byte_at nth].
  destruct (lead_patterns_exclusive b0) as (E2 & _ & _). specialize (E2 H2).
  destruct (Nat.eqb_spec l 0); [lia|]. cbn [negb].
  destruct (Z.eqb_spec (Z.land b0 0x80) 0); [lia|].
  destruct (Z.eqb_spec (Z.land b0 0xE0) 0xC0); [|done].
  by destruct (Nat.leb_spec 2 l); [|lia].
Qed.

Lemma decode_lead3 (b0 b1 b2 : Z) (rest : list Z) (l : nat) :
  lead3 b0 -> (3 <= l)%nat ->
  decode_codepoint (b0 :: b1 :: b2 :: rest) l =
    Some (3%nat,
          Z.lor (Z.lor (Z.shiftl (Z.land b0 0x0F) 12)
                       (Z.shiftl (Z.land b1 0x3F) 6))
                (Z.land b2 0x3F)).
Proof.
  unfold lead3, decode_codepoint. intros H3 Hl. cbn [byte_at nth].
  destruct (lead_patterns_exclusive b0) as (_ & E3 & _).
  destruct (E3 H3) as [E80 EE0].
  destruct (Nat.eqb_spec l 0); [lia|]. cbn [negb].
  destruct (Z.eqb_spec (Z.land b0 0x80) 0); [lia|].
  destruct (Z.eqb_spec (Z.land b0 0xE0) 0xC0); [lia|].
  destruct (Z.eqb_spec (Z.land b0 0xF0) 0xE0); [|done].
  by destruct (Nat.leb_spec 3 l); [|lia].
Qed.

Lemma decode_lead4 (b0 b1 b2 b3 : Z) (rest : list Z) (l : nat) :
  lead4 b0 -> (4 <= l)%nat ->
  decode_codepoint (b0 :: b1 :: b2 :: b3 :: rest) l =
    Some (4%nat,
          Z.lor (Z.lor (Z.lor (Z.shiftl (Z.land b0 0x07) 18)
                              (Z.shiftl (Z.land b1 0x3F) 12))
                       (Z.shiftl (Z.land b2 0x3F) 6))
                (Z.land b3 0x3F)).
Proof.
  unfold lead4, decode_codepoint. intros H4 Hl. cbn [byte_at nth].
  destruct (lead_patterns_exclusive b0) as (_ & _ & E4).
  destruct (E4 H4) as (E80 & EE0 & EF0).
  destruct (Nat.eqb_spec l 0); [lia|]. cbn [negb].
  destruct (Z.eqb_spec (Z.land b0 0x80) 0); [lia|].
  destruct (Z.eqb_spec (Z.land b0 0xE0) 0xC0); [lia|].
  destruct (Z.eqb_spec (Z.land b0 0xF0) 0xE0); [lia|].
  destruct (Z.eqb_spec (Z.land b0 0xF8) 0xF0); [|done].
  by destruct (Nat.leb_spec 4 l); [|lia].
Qed.

(** Packing sextets back: the shifts and ors of [decode_codepoint] as
    a positional sum. *)
Lemma pack2 (a b : Z) :
  0 <= b < 64 -> Z.lor (Z.shiftl a 6) b = a * 64 + b.
Proof.
  intros Hb. rewrite Z.shiftl_mul_pow2 by lia.
  by rewrite (lor_disjoint a b 6).
Qed.

Lemma pack3 (a b c : Z) :
  0 <= b < 64 -> 0 <= c < 64 ->
  Z.lor (Z.lor (Z.shiftl a 12) (Z.shiftl b 6)) c = a * 4096 + b * 64 + c.
Proof.
  intros Hb Hc. rewrite !Z.shiftl_mul_pow2 by lia.
  rewrite (lor_disjoint a (b * 2 ^ 6) 12) by lia.
  replace (a * 2 ^ 12 + b * 2 ^ 6) with ((a * 64 + b) * 2 ^ 6) by lia.
  rewrite (lor_disjoint _ c 6) by lia. lia.
Qed.

Lemma pack4 (a b c d : Z) :
  0 <= b < 64 -> 0 <= c < 64 -> 0 <= d < 64 ->
  Z.lor (Z.lor (Z.lor (Z.shiftl a 18) (Z.shiftl b 12)) (Z.shiftl c 6)) d =
    a * 262144 + b * 4096 + c * 64 + d.
Proof.
  intros Hb Hc Hd. rewrite !Z.shiftl_mul_pow2 by lia.
  rewrite (lor_disjoint a (b * 2 ^ 12) 18) by lia.
  replace (a * 2 ^ 18 + b * 2 ^ 12) with ((a * 64 + b) * 2 ^ 12) by lia.
  rewrite (lor_disjoint _ (c * 2 ^ 6) 12) by lia.
  replace ((a * 64 + b) * 2 ^ 12 + c * 2 ^ 6)
    with (((a * 64 + b) * 64 + c) * 2 ^ 6) by lia.
  rewrite (lor_disjoint _ d 6) by lia. lia.
Qed.

(** C3: round trip.  For every scalar [v] of [[0, 0x10FFFF]] outside the
    surrogate range, [encode_codepoint v] has the number of bytes the
    boundary table predicts, and [decode_codepoint] on these bytes succeeds
    with that byte count and with [v]. *)
Theorem decode_encode_roundtrip (v : Z) :
  0 <= v <= 0x10FFFF -> ~ (0xD800 <= v <= 0xDFFF) ->
  length (encode_codepoint v) = encoded_length v /\
  decode_codepoint (encode_codepoint v) (length (encode_codepoint v)) =
    Some (encoded_length v, v).
Proof.
  clear int_overflow.
  intros Hv Hs. rewrite encode_codepoint_bytes.
  unfold encode_bytes, encoded_length.
  destruct (Z.ltb_spec v 0x80) as [H1|H1].
  { destruct (ascii_byte v) as [E L]; [lia|]. cbv zeta in E, L.
    split; [done|]. rewrite decode_lead1; [by rewrite E|done|done]. }
  pose proof (sextet_range v 0 ltac:(lia)) as R0.
  pose proof (sextet_range v 6 ltac:(lia)) as R6.
  pose proof (sextet_range v 12 ltac:(lia)) as R12.
  pose proof (sextet_value v 0 ltac:(lia)) as V0.
  pose proof (sextet_value v 6 ltac:(lia)) as V6.
  pose proof (sextet_value v 12 ltac:(lia)) as V12.
  change (2 ^ 0) with 1 in V0. change (2 ^ 6) with 64 in V6.
  change (2 ^ 12) with 4096 in V12. rewrite Z.div_1_r in V0.
  destruct (continuation_sextet v 0) as (_ & _ & P0 & _); [lia|].
  destruct (continuation_sextet v 6) as (_ & _ & P6 & _); [lia|].
  destruct (continuation_sextet v 12) as (_ & _ & P12 & _); [lia|].
  cbv zeta in P0, P6, P12.
  destruct (Z.ltb_spec v 0x800) as [H2|H2].
  { destruct (lead2_of v) as (_ & L & P & _); [lia|]. cbv zeta in L, P.
    split; [done|]. rewrite decode_lead2 by done.
    rewrite P, P0, pack2 by done. do 2 f_equal.
    rewrite V0. Z.div_mod_to_equations. lia. }
  destruct (Z.ltb_spec v 0xD800) as [H3|H3],
           (Z.leb_spec 0xE000 v) as [H4|H4],
           (Z.ltb_spec v 0x10000) as [H5|H5]; cbn [orb andb]; try lia.
  1,2: destruct (lead3_of v) as (_ & L & P & _); [lia|]; cbv zeta in L, P;
       split; [done|]; rewrite decode_lead3 by done;
       rewrite P, P6, P0, pack3 by done; do 2 f_equal;
       rewrite V6, V0; Z.div_mod_to_equations; lia.
  destruct (Z.leb_spec 0x10000 v), (Z.ltb_spec v 0x110000);
    cbn [andb]; try lia.
  destruct (lead4_of v) as (_ & L & P & _); [lia|]. cbv zeta in L, P.
  split; [done|]. rewrite decode_lead4 by done.
  rewrite P, P12, P6, P0, pack4 by done. do 2 f_equal.
  rewrite V12, V6, V0. Z.div_mod_to_equations. lia.
Qed.

Lemma decode_encode_roundtrip_witness :
  length (encode_codepoint 0x1F600) = encoded_length 0x1F600 /\
  decode_codepoint (encode_codepoint 0x1F600)
    (length (encode_codepoint 0x1F600)) = Some (encoded_length 0x1F600, 0x1F600).
Proof. apply (decode_encode_roundtrip 0x1F600); lia. Defined.

(** No scalar is encoded with the lead byte [0xED] followed by [0xA0]:
    that would be a surrogate. *)
Lemma encode_never_surrogate_bytes (v : Z) :
  encode_codepoint v <> [0xED; 0xA0; 0x80].
Proof.
  clear int_overflow.
  rewrite encode_codepoint_bytes. unfold encode_bytes.
  destruct (Z.ltb_spec v 0x80); [discriminate|].
  destruct (Z.ltb_spec v 0x800); [discriminate|].
  destruct (Z.ltb_spec v 0xD800) as [H3|H3],
           (Z.leb_spec 0xE000 v) as [H4|H4],
           (Z.ltb_spec v 0x10000) as [H5|H5]; cbn [orb andb]; try lia.
  1,2: destruct (lead3_of v) as (E0 & _); [lia|];
       destruct (continuation_sextet v 6) as (E1 & _); [lia|];
       cbv zeta in E0, E1; rewrite E0, E1, sextet_value by lia;
       change (2 ^ 6) with 64; intros [= Eb0 Eb1 _];
       revert Eb0 Eb1; Z.div_mod_to_equations; lia.
  all: destruct (0x10000 <=? v), (v <? 0x110000); discriminate.
Qed.

(** No scalar is encoded with a lead byte above [0xF4]. *)
Lemma encode_never_lead_above_F4 (v b0 b1 b2 b3 : Z) :
  0xF5 <= b0 -> encode_codepoint v <> [b0; b1; b2; b3].
Proof.
  clear int_overflow.
  intros Hb. rewrite encode_codepoint_bytes. unfold encode_bytes.
  destruct (Z.ltb_spec v 0x80); [discriminate|].
  destruct (Z.ltb_spec v 0x800); [discriminate|].
  destruct ((v <? 0xD800) || (0xE000 <=? v) && (v <? 0x10000)); [discriminate|].
  destruct (Z.leb_spec 0x10000 v), (Z.ltb_spec v 0x110000);
    cbn [andb]; try discriminate.
  destruct (lead4_of v) as (E0 & _); [lia|]. cbv zeta in E0. rewrite E0.
  intros [= Eb0 _ _ _]. revert Eb0. Z.div_mod_to_equations. lia.
Qed.

Lemma sextet_of_byte (b : Z) : 0 <= Z.land b 0x3F < 64.
Proof.
  change 0x3F with (2 ^ 6 - 1). rewrite land_low_bits by lia.
  apply Z.mod_pos_bound. lia.
Qed.

(** Any four bytes led by [0xF5], [0xF6] or [0xF7] decode, to a value
    beyond the last code point. *)
Lemma decode_lead_F5_F7 (b0 b1 b2 b3 : Z) (l : nat) :
  0xF5 <= b0 <= 0xF7 -> (4 <= l)%nat ->
  exists cp, decode_codepoint [b0; b1; b2; b3] l = Some (4%nat, cp) /\
             0x110000 <= cp.
Proof.
  intros Hb Hl.
  assert (lead4 b0 /\ 5 <= Z.land b0 0x07) as [L4 P].
  { assert (b0 = 0xF5 \/ b0 = 0xF6 \/ b0 = 0xF7) as [-> | [-> | ->]] by lia;
      by vm_compute. }
  eexists. split; [by apply decode_lead4|].
  pose proof (sextet_of_byte b1). pose proof (sextet_of_byte b2).
  pose proof (sextet_of_byte b3).
  rewrite pack4 by done. lia.
Qed.

(** C9: [decode_codepoint] does not check the range of what it decoded.
    The three bytes [ED A0 80] decode (with three or more bytes available)
    to the surrogate [0xD800], and four bytes led by [0xF5 .. 0xF7] decode
    to a value of [0x110000] or more; [encode_codepoint] produces neither
    byte sequence, whatever the scalar. *)
Theorem decode_codepoint_unchecked_range :
  (forall l, (3 <= l)%nat ->
     decode_codepoint [0xED; 0xA0; 0x80] l = Some (3%nat, 0xD800)) /\
  0xD800 <= 0xD800 <= 0xDFFF /\
  (forall b0 b1 b2 b3 l, 0xF5 <= b0 <= 0xF7 -> (4 <= l)%nat ->
     (exists cp, decode_codepoint [b0; b1; b2; b3] l = Some (4%nat, cp) /\
                 0x110000 <= cp) /\
     forall v, encode_codepoint v <> [b0; b1; b2; b3]) /\
  (forall v, encode_codepoint v <> [0xED; 0xA0; 0x80]).
Proof.
  split; [|split; [lia|split]].
  - intros l Hl. by rewrite decode_lead3.
  - intros b0 b1 b2 b3 l Hb Hl. split; [by apply decode_lead_F5_F7|].
    intros v. apply encode_never_lead_above_F4. lia.
  - apply encode_never_surrogate_bytes.
Qed.

Lemma decode_codepoint_unchecked_range_witness :
  (exists cp, decode_codepoint [0xF6; 0x80; 0x80; 0x80] 4 = Some (4%nat, cp) /\
              0x110000 <= cp) /\
  forall v, encode_codepoint v <> [0xF6; 0x80; 0x80; 0x80].
Proof.
  apply (proj1 (proj2 (proj2 decode_codepoint_unchecked_range))
           0xF6 0x80 0x80 0x80 4%nat); lia.
Defined.

(** ** UTF-8: [codepoint_count] *)

(** Where [codepoint_length] answers 0 the loop of [codepoint_count]
    adds 0 to [i]: it stays at that index, whatever the fuel. *)
Lemma codepoint_count_stuck (s8 : list Z) (l i : nat) :
  (i < l)%nat -> codepoint_length (drop i s8) (l - i) = 0%nat ->
  forall fuel count,
    while_ fuel (codepoint_count_cond l) (codepoint_count_body s8 l) (i, count)
    = OutOfFuel.
Proof.
  intros Hi Hz. induction fuel as [|fuel IH]; intros count; [done|].
  rewrite while_step. unfold codepoint_count_cond at 1. cbn [fst].
  destruct (Nat.ltb_spec i l); [|lia].
  change (codepoint_count_body s8 l (i, count))
    with (Ok ((i + codepoint_length (drop i s8) (l - i))%nat,
              (count + 1) mod 2 ^ 64) : result (nat * Z)).
  rewrite Hz, Nat.add_0_r. apply IH.
Qed.

(** C2, as the code has it: on a buffer that holds the lone
    continuation byte [0x80], or the truncated lead byte [0xC3],
    [codepoint_length] is 0 at index 0 and [codepoint_count] does not
    return, however many iterations it is given. *)
Theorem codepoint_count_does_not_return :
  codepoint_length [0x80] 1 = 0%nat /\
  codepoint_length [0xC3] 1 = 0%nat /\
  forall fuel,
    codepoint_count fuel [0x80] 1 = OutOfFuel /\
    codepoint_count fuel [0xC3] 1 = OutOfFuel.
Proof.
  split; [done|split; [done|]]. intros fuel. unfold codepoint_count.
  rewrite (codepoint_count_stuck [0x80] 1 0 ltac:(lia) eq_refl).
  by rewrite (codepoint_count_stuck [0xC3] 1 0 ltac:(lia) eq_refl).
Qed.

(** On a buffer of ASCII bytes every step is 1 and the count is the
    length. *)
Lemma codepoint_count_ascii_loop (s8 : list Z) :
  Forall lead1 s8 ->
  forall fuel i count,
    (i <= length s8)%nat -> (length s8 - i < fuel)%nat ->
    0 <= count -> count + Z.of_nat (length s8 - i) < 2 ^ 64 ->
    while_ fuel (codepoint_count_cond (length s8))
      (codepoint_count_body s8 (length s8)) (i, count)
    = Ok (length s8, count + Z.of_nat (length s8 - i)).
Proof.
  intros Hascii. induction fuel as [|fuel IH]; intros i count Hi Hf Hc Hb; [lia|].
  rewrite while_step. unfold codepoint_count_cond at 1. cbn [fst].
  destruct (Nat.ltb_spec i (length s8)) as [Hlt|Hge].
  - change (codepoint_count_body s8 (length s8) (i, count))
      with (Ok ((i + codepoint_length (drop i s8) (length s8 - i))%nat,
                (count + 1) mod 2 ^ 64) : result (nat * Z)).
    assert (codepoint_length (drop i s8) (length s8 - i) = 1%nat) as ->.
    { eapply length_table_functional; [apply codepoint_length_in_table|].
      apply Row1; [lia|].
      unfold byte_at. rewrite nth_skipn, Nat.add_0_r.
      rewrite Forall_forall in Hascii. apply Hascii, list_elem_of_In, nth_In. lia. }
    cbn. rewrite Z.mod_small by lia.
    rewrite IH by lia. do 2 f_equal. lia.
  - do 2 f_equal; [lia|]. replace (length s8 - i)%nat with 0%nat by lia. lia.
Qed.

Lemma codepoint_count_ascii (s8 : list Z) :
  Forall lead1 s8 -> Z.of_nat (length s8) < 2 ^ 64 ->
  codepoint_count (S (length s8)) s8 (length s8) = Ok (Z.of_nat (length s8)).
Proof.
  intros Hascii Hlen. unfold codepoint_count.
  rewrite (codepoint_count_ascii_loop s8 Hascii) by lia.
  cbn. f_equal. lia.
Qed.

(** ** [resolve_escape_sequence]: the number loops *)

(** Simulation: a loop run on the image of a state under [f]. *)
Lemma while_sim {S T : Type} (f : S -> T)
    (cond1 : S -> bool) (body1 : S -> result S)
    (cond2 : T -> bool) (body2 : T -> result T) :
  (forall s, cond2 (f s) = cond1 s) ->
  (forall s, cond1 s = true -> body2 (f s) = f <$> body1 s) ->
  forall fuel s,
    while_ fuel cond2 body2 (f s) = f <$> while_ fuel cond1 body1 s.
Proof.
  intros Hc Hb. induction fuel as [|fuel IH]; intros s; [done|].
  rewrite !while_step, Hc. destruct (cond1 s) eqn:E; [|done].
  rewrite Hb by done. destruct (body1 s); cbn; [apply IH|done|done].
Qed.

Lemma byte_at_drop (s : list Z) (i k : nat) :
  byte_at (drop i s) k = byte_at s (i + k).
Proof. unfold byte_at. apply nth_skipn. Qed.

Lemma drop_byte_at (s : list Z) (i : nat) :
  (i < length s)%nat -> drop i s = byte_at s i :: drop (S i) s.
Proof.
  intros Hi. apply drop_S. unfold byte_at.
  rewrite nth_lookup. by destruct (lookup_lt_is_Some_2 s i Hi) as [x ->].
Qed.

Section ParseNumber.
Context (digit : Z -> option Z) (radix : Z).

Lemma parse_number_body_eq (s : list Z) (ret : Z) (i : nat) :
  parse_number_body digit radix s (ret, i) =
    match digit (byte_at s i) with
    | Some val => Ok (to_int (ret * radix + val), S i)
    | None => Ok (ret, i)
    end.
Proof. reflexivity. Qed.

Lemma parse_number_loop (s : list Z) (fuel : nat) :
  forall ret i,
    (i <= length s)%nat -> (length s - i < fuel)%nat ->
    while_ fuel (parse_number_cond digit s (length s))
      (parse_number_body digit radix s) (ret, i)
    = Ok (accumulate digit radix (digit_run digit (drop i s)) ret,
          (i + length (digit_run digit (drop i s)))%nat).
Proof.
  induction fuel as [|fuel IH]; intros ret i Hi Hf; [lia|].
  rewrite while_step. unfold parse_number_cond at 1. cbn [snd].
  destruct (Nat.ltb_spec i (length s)) as [Hlt|Hge]; cbn [andb].
  - rewrite (drop_byte_at s i Hlt). cbn [digit_run].
    rewrite parse_number_body_eq.
    destruct (digit (byte_at s i)) as [val|] eqn:Hd.
    + rewrite bool_decide_eq_true_2 by eauto.
      rewrite bind_Ok, IH by lia.
      unfold accumulate. cbn [fold_left length]. rewrite Hd.
      do 2 f_equal. lia.
    + rewrite bool_decide_eq_false_2 by (by intros [? ?]).
      cbn [length]. by rewrite Nat.add_0_r.
  - rewrite drop_ge by lia. cbn [digit_run length]. by rewrite Nat.add_0_r.
Qed.

Lemma digit_run_length (s : list Z) :
  (length (digit_run digit s) <= length s)%nat.
Proof. induction s as [|c t IH]; cbn; [lia|]. destruct (digit c); cbn; lia. Qed.

Lemma digit_run_Forall (s : list Z) :
  Forall (fun c => is_Some (digit c)) (digit_run digit s).
Proof.
  induction s as [|c t IH]; cbn; [constructor|].
  destruct (digit c) eqn:E; constructor; eauto.
Qed.

(** A run of digits followed by something that is no digit. *)
Lemma digit_run_app (run rest : list Z) :
  Forall (fun c => is_Some (digit c)) run ->
  digit_run digit rest = [] ->
  digit_run digit (run ++ rest) = run.
Proof.
  intros Hrun Hrest. induction Hrun as [|c run [v Hc] _ IH]; cbn; [done|].
  by rewrite Hc, IH.
Qed.

Lemma digit_run_drop (s : list Z) :
  digit_run digit s ++ drop (length (digit_run digit s)) s = s.
Proof.
  induction s as [|c t IH]; cbn; [done|].
  destruct (digit c); cbn; [by rewrite IH|done].
Qed.
End ParseNumber.

Lemma parse_hex_number_run (s : list Z) (i : nat) :
  (i <= length s)%nat ->
  parse_hex_number s (length s) i =
    Ok (accumulate is_hex 16 (digit_run is_hex (drop i s)) 0,
        (i + length (digit_run is_hex (drop i s)))%nat).
Proof. intros Hi. apply parse_number_loop; lia. Qed.

Lemma parse_octal_number_run (s : list Z) (i : nat) :
  (i <= length s)%nat ->
  parse_octal_number s (length s) i =
    Ok (accumulate is_digit 8 (digit_run is_digit (drop i s)) 0,
        (i + length (digit_run is_digit (drop i s)))%nat).
Proof. intros Hi. apply parse_number_loop; lia. Qed.

(** ** [resolve_escape_sequence]: one iteration, read off the text *)

Lemma resolve_body_step (s : list Z) (i : nat) (r : list Z) :
  (i < length s)%nat ->
  resolve_body s (length s) (i, r) = advance i r <$> escape_step (drop i s).
Proof.
  intros Hi. rewrite (drop_byte_at s i Hi).
  unfold resolve_body, escape_step.
  destruct (byte_at s i =? chr "\") eqn:Hbs; cycle 1.
  { rewrite fmap_Ok. unfold advance. cbn [fst snd]. do 2 f_equal. lia. }
  destruct (Nat.eqb_spec (S i) (length s)) as [He|Hne].
  { by rewrite drop_ge by lia. }
  rewrite (drop_byte_at s (S i)) by lia.
  rewrite parse_hex_number_run, parse_octal_number_run by lia.
  rewrite (drop_byte_at s (S i)) by lia.
  set (c := byte_at s (S i)). unfold simple_escape, hex_intro.
  repeat match goal with
         | |- context [c =? ?b] => destruct (c =? b)
         end;
    cbn [orb]; rewrite ?bind_Ok, fmap_Ok; unfold advance; cbn [fst snd];
    do 2 f_equal; lia.
Qed.

(** Every iteration that does not throw consumes at least one byte and
    stays inside the text. *)
Lemma escape_step_progress (s : list Z) (k : nat) (out : list Z) :
  s <> [] -> escape_step s = Ok (k, out) -> (1 <= k <= length s)%nat.
Proof.
  destruct s as [|c t]; [done|]. intros _. unfold escape_step.
  destruct (c =? chr "\"); [|intros [= <- _]; cbn; lia].
  destruct t as [|c' t']; [done|].
  destruct (simple_escape c'); [intros [= <- _]; cbn; lia|].
  destruct (hex_intro c'); intros [= <- _].
  - pose proof (digit_run_length is_hex t'). cbn [length]. lia.
  - pose proof (digit_run_length is_digit (c' :: t')).
    cbn [length digit_run] in *. lia.
Qed.

Lemma escape_step_not_out_of_fuel (s : list Z) : escape_step s <> OutOfFuel.
Proof.
  destruct s as [|c t]; [done|]. unfold escape_step.
  destruct (c =? chr "\"); [|done]. destruct t as [|c' t']; [done|].
  destruct (simple_escape c'); [done|]. by destruct (hex_intro c').
Qed.

(** The only exception the loop raises. *)
Lemma escape_step_throw (s : list Z) (e : runtime_error) :
  escape_step s = Throw e -> e = invalid_escape /\ s = [chr "\"].
Proof.
  destruct s as [|c t]; [done|]. unfold escape_step.
  destruct (Z.eqb_spec c (chr "\")) as [->|]; [|done].
  destruct t as [|c' t']; [by intros [= <-]|].
  destruct (simple_escape c'); [done|]. by destruct (hex_intro c').
Qed.

Section ResolveLoop.
Context (s : list Z).

Lemma resolve_loop_total (fuel i : nat) (r : list Z) :
  (i <= length s)%nat -> (length s - i < fuel)%nat ->
  while_ fuel (resolve_cond (length s)) (resolve_body s (length s)) (i, r)
  <> OutOfFuel.
Proof.
  intros Hi Hf.
  apply (while_terminates _ _ (fun st => (fst st <= length s)%nat)
           (fun st => (length s - fst st)%nat)); [|done|done].
  intros [j r'] Hj Hc. unfold resolve_cond in Hc. cbn [fst] in *.
  apply Nat.ltb_lt in Hc. rewrite resolve_body_step by done.
  destruct (escape_step (drop j s)) as [[k out]|e|] eqn:Hstep.
  - right. eexists. split; [by rewrite fmap_Ok|].
    apply escape_step_progress in Hstep.
    + rewrite length_drop in Hstep. unfold advance. cbn [fst]. lia.
    + intros Hnil. apply (f_equal length) in Hnil.
      rewrite length_drop in Hnil. cbn in Hnil. lia.
  - left. by eexists.
  - by destruct (escape_step_not_out_of_fuel (drop j s)).
Qed.

(** The loop at index [i] of [s] is the loop at index 0 of what is
    left of [s] there. *)
Lemma resolve_loop_shift (i : nat) (r0 : list Z) (fuel : nat)
    (st : nat * list Z) :
  (i <= length s)%nat ->
  while_ fuel (resolve_cond (length s)) (resolve_body s (length s))
    (advance i r0 st)
  = advance i r0 <$>
      while_ fuel (resolve_cond (length (drop i s)))
        (resolve_body (drop i s) (length (drop i s))) st.
Proof.
  intros Hi. apply while_sim.
  - intros [k r]. unfold resolve_cond, advance. cbn [fst].
    rewrite length_drop.
    destruct (Nat.ltb_spec (i + k) (length s)), (Nat.ltb_spec k (length s - i));
      done || lia.
  - intros [k r] Hc. unfold resolve_cond in Hc. cbn [fst] in Hc.
    apply Nat.ltb_lt in Hc. pose proof Hc as Hc'. rewrite length_drop in Hc'.
    unfold advance at 1. cbn [fst snd].
    rewrite !resolve_body_step by (done || lia).
    rewrite drop_drop, fmap_compose_result.
    apply fmap_ext_result. intros [k' out]. unfold advance. cbn [fst snd].
    unfold compose. cbn [fst snd]. f_equal; [lia|by rewrite app_assoc].
Qed.
End ResolveLoop.

Lemma resolve_loop_form (s : list Z) :
  resolve s =
    snd <$> while_ (S (length s)) (resolve_cond (length s))
              (resolve_body s (length s)) (0%nat, []).
Proof.
  unfold resolve, resolve_escape_sequence. by destruct (while_ _ _ _ _).
Qed.

Lemma resolve_nil : resolve [] = Ok [].
Proof. reflexivity. Qed.

(** The recursion the loop carries out: one iteration at the head, then
    the rest of the text. *)
Lemma resolve_unfold (s : list Z) :
  s <> [] ->
  resolve s = escape_step s ≫= fun '(k, out) => (out ++.) <$> resolve (drop k s).
Proof.
  intros Hne. rewrite resolve_loop_form, while_step.
  unfold resolve_cond at 1. cbn [fst].
  destruct (Nat.ltb_spec 0 (length s)) as [Hlen|Hlen];
    [|destruct s; [done|cbn in Hlen; lia]].
  rewrite resolve_body_step by done. rewrite drop_0.
  destruct (escape_step s) as [[k out]|e|] eqn:Hstep; [|done|done].
  apply escape_step_progress in Hstep as Hk; [|done].
  rewrite fmap_Ok, !bind_Ok.
  replace (advance 0 [] (k, out)) with (advance k out (0%nat, []))
    by (unfold advance; cbn [fst snd]; f_equal; [lia|apply app_nil_r]).
  rewrite resolve_loop_shift by lia.
  rewrite resolve_loop_form.
  rewrite <- (while_fuel_mono _ _ (S (length (drop k s))) (length s)).
  - rewrite !fmap_compose_result. apply fmap_ext_result. by intros [j r].
  - rewrite length_drop. lia.
  - apply resolve_loop_total; lia.
Qed.

(** ** [resolve_escape_sequence]: its equations on a whole text *)

Lemma simple_escape_backslash : simple_escape (chr "\") = Some (chr "\").
Proof. reflexivity. Qed.

Lemma simple_escape_None_not_backslash (c : Z) :
  simple_escape c = None -> c <> chr "\".
Proof. by intros H ->. Qed.

Lemma resolve_plain (c : Z) (t : list Z) :
  c <> chr "\" -> resolve (c :: t) = (c ::.) <$> resolve t.
Proof.
  intros Hc. rewrite resolve_unfold by done. unfold escape_step.
  destruct (Z.eqb_spec c (chr "\")); [done|]. by rewrite bind_Ok.
Qed.

Lemma resolve_lone_backslash : resolve [chr "\"] = Throw invalid_escape.
Proof. reflexivity. Qed.

Lemma resolve_simple (c e : Z) (t : list Z) :
  simple_escape c = Some e ->
  resolve (chr "\" :: c :: t) = (e ::.) <$> resolve t.
Proof.
  intros He. rewrite resolve_unfold by done. unfold escape_step.
  rewrite Z.eqb_refl, He. by rewrite bind_Ok.
Qed.

Lemma resolve_hex (c : Z) (t : list Z) :
  simple_escape c = None -> hex_intro c = true ->
  resolve (chr "\" :: c :: t) =
    (encode_codepoint (to_char32 (accumulate is_hex 16 (digit_run is_hex t) 0)) ++.)
      <$> resolve (drop (length (digit_run is_hex t)) t).
Proof.
  intros Hs Hh. rewrite resolve_unfold by done. unfold escape_step.
  rewrite Z.eqb_refl, Hs, Hh. by rewrite bind_Ok.
Qed.

Lemma resolve_octal (c : Z) (t : list Z) :
  simple_escape c = None -> hex_intro c = false ->
  resolve (chr "\" :: c :: t) =
    (encode_codepoint
       (to_char32 (accumulate is_digit 8 (digit_run is_digit (c :: t)) 0)) ++.)
      <$> resolve (drop (length (digit_run is_digit (c :: t))) (c :: t)).
Proof.
  intros Hs Hh. rewrite resolve_unfold by done. unfold escape_step.
  rewrite Z.eqb_refl, Hs, Hh. by rewrite bind_Ok.
Qed.

(** Text without backslashes is copied. *)
Lemma resolve_copy (plain rest : list Z) :
  Forall (fun c => c <> chr "\") plain ->
  resolve (plain ++ rest) = (plain ++.) <$> resolve rest.
Proof.
  induction 1 as [|c plain Hc _ IH]; cbn [app].
  - by destruct (resolve rest).
  - rewrite resolve_plain, IH, fmap_compose_result by done.
    by apply fmap_ext_result.
Qed.

(** ** Arithmetic of the number loops *)

Lemma to_int_small (x : Z) : - 2 ^ 31 <= x < 2 ^ 31 -> to_int x = x.
Proof.
  intros H. unfold to_int.
  by destruct (Z.leb_spec (- 2 ^ 31) x), (Z.ltb_spec x (2 ^ 31)); [|lia..].
Qed.

Lemma is_hex_range (c v : Z) : is_hex c = Some v -> 0 <= v < 16.
Proof.
  unfold is_hex. change (chr "0") with 48. change (chr "9") with 57.
  change (chr "a") with 97. change (chr "f") with 102.
  change (chr "A") with 65. change (chr "F") with 70.
  repeat match goal with
         | |- context [?a <=? ?b] => destruct (Z.leb_spec a b)
         end; cbn [andb]; intros [= <-]; lia.
Qed.

Lemma is_digit_range (c v : Z) : is_digit c = Some v -> 0 <= v < 10.
Proof.
  unfold is_digit. change (chr "0") with 48. change (chr "9") with 57.
  repeat match goal with
         | |- context [?a <=? ?b] => destruct (Z.leb_spec a b)
         end; cbn [andb]; intros [= <-]; lia.
Qed.

(** The digits [is_hex] and [is_digit] accept, and the values they give. *)
Lemma is_hex_spec (c v : Z) :
  is_hex c = Some v <->
  chr "0" <= c <= chr "9" /\ v = c - chr "0" \/
  chr "a" <= c <= chr "f" /\ v = c - chr "a" + 10 \/
  chr "A" <= c <= chr "F" /\ v = c - chr "A" + 10.
Proof.
  unfold is_hex. change (chr "0") with 48. change (chr "9") with 57.
  change (chr "a") with 97. change (chr "f") with 102.
  change (chr "A") with 65. change (chr "F") with 70.
  repeat match goal with
         | |- context [?a <=? ?b] => destruct (Z.leb_spec a b)
         end; cbn [andb]; (split; [intros [= <-]|intros H'; try f_equal]); lia.
Qed.

Lemma is_digit_spec (c v : Z) :
  is_digit c = Some v <-> chr "0" <= c <= chr "9" /\ v = c - chr "0".
Proof.
  unfold is_digit. change (chr "0") with 48. change (chr "9") with 57.
  repeat match goal with
         | |- context [?a <=? ?b] => destruct (Z.leb_spec a b)
         end; cbn [andb]; (split; [intros [= <-]|intros H'; try f_equal]); lia.
Qed.

Section Accumulate.
Context (digit : Z -> option Z) (radix : Z).
Hypothesis radix_pos : 1 <= radix.
Hypothesis digit_nonneg : forall c v, digit c = Some v -> 0 <= v.

(** Reading on digits never lowers the number read so far. *)
Lemma radix_fold_ge (run : list Z) (v0 : Z) :
  Forall (fun c => is_Some (digit c)) run -> 0 <= v0 ->
  v0 <= fold_left (fun v c => v * radix + default 0 (digit c)) run v0.
Proof.
  intros Hrun. revert v0. induction Hrun as [|c run [v Hv] _ IH]; intros v0 H0.
  - done.
  - cbn [fold_left]. rewrite Hv. cbn [from_option]. change (id v) with v.
    pose proof (digit_nonneg c v Hv).
    etrans; [|apply IH; nia]. nia.
Qed.

(** Where the number the digits denote fits an [int], no step of the
    loop overflows and the loop returns that number. *)
Lemma accumulate_exact (run : list Z) (ret : Z) :
  Forall (fun c => is_Some (digit c)) run -> 0 <= ret ->
  fold_left (fun v c => v * radix + default 0 (digit c)) run ret < 2 ^ 31 ->
  accumulate digit radix run ret =
    fold_left (fun v c => v * radix + default 0 (digit c)) run ret.
Proof.
  intros Hrun. revert ret.
  induction Hrun as [|c run [v Hv] Hrun IH]; intros ret H0 Hsmall; [done|].
  unfold accumulate in *. cbn [fold_left] in *.
  rewrite Hv in *. cbn [from_option] in *. change (id v) with v in *.
  pose proof (digit_nonneg c v Hv).
  pose proof (radix_fold_ge run (ret * radix + v) Hrun ltac:(nia)) as Hge.
  assert (0 <= ret * radix + v) by nia.
  rewrite to_int_small by (change (2 ^ 31) with 2147483648 in *; lia).
  apply IH; [lia|done].
Qed.

Lemma radix_value_nonneg (run : list Z) :
  Forall (fun c => is_Some (digit c)) run -> 0 <= radix_value digit radix run.
Proof. intros Hrun. by apply (radix_fold_ge run 0). Qed.

Lemma accumulate_value (run : list Z) :
  Forall (fun c => is_Some (digit c)) run ->
  radix_value digit radix run < 2 ^ 31 ->
  accumulate digit radix run 0 = radix_value digit radix run /\
  to_char32 (accumulate digit radix run 0) = radix_value digit radix run.
Proof.
  intros Hrun Hsmall.
  assert (accumulate digit radix run 0 = radix_value digit radix run) as E
    by (by apply accumulate_exact).
  split; [done|]. rewrite E. unfold to_char32.
  pose proof (radix_value_nonneg run Hrun).
  apply Z.mod_small. change (2 ^ 32) with 4294967296.
  change (2 ^ 31) with 2147483648 in Hsmall. lia.
Qed.
End Accumulate.

Lemma hex_value (run : list Z) :
  Forall (fun c => is_Some (is_hex c)) run ->
  radix_value is_hex 16 run < 2 ^ 31 ->
  to_char32 (accumulate is_hex 16 run 0) = radix_value is_hex 16 run.
Proof.
  intros Hrun Hsmall. apply (accumulate_value is_hex 16); [lia| |done|done].
  intros c v Hv. apply is_hex_range in Hv. lia.
Qed.

Lemma octal_value (run : list Z) :
  Forall (fun c => is_Some (is_digit c)) run ->
  radix_value is_digit 8 run < 2 ^ 31 ->
  to_char32 (accumulate is_digit 8 run 0) = radix_value is_digit 8 run.
Proof.
  intros Hrun Hsmall. apply (accumulate_value is_digit 8); [lia| |done|done].
  intros c v Hv. apply is_digit_range in Hv. lia.
Qed.

(** ** [resolve_escape_sequence]: when it throws *)

Lemma leading_backslashes_stop (a b : list Z) (c : Z) :
  c <> chr "\" -> leading_backslashes (a ++ c :: b) = leading_backslashes a.
Proof.
  intros Hc. induction a as [|x a IH]; cbn.
  - by destruct (Z.eqb_spec c (chr "\")).
  - destruct (x =? chr "\"); [by rewrite IH|done].
Qed.

Lemma leading_backslashes_two_more (a : list Z) :
  Nat.odd (leading_backslashes (a ++ [chr "\"; chr "\"])) =
  Nat.odd (leading_backslashes a).
Proof.
  assert (leading_backslashes (a ++ [chr "\"; chr "\"]) =
          (leading_backslashes a +
           if (leading_backslashes a =? length a)%nat then 2 else 0)%nat) as ->.
  { induction a as [|x a IH]; [done|]. cbn [app leading_backslashes length].
    destruct (x =? chr "\"); [|done]. rewrite IH.
    change (S ?n =? S ?m)%nat with (n =? m)%nat.
    destruct (_ =? _)%nat; lia. }
  destruct (_ =? _)%nat; [|by rewrite Nat.add_0_r].
  rewrite Nat.odd_add. by destruct (Nat.odd _).
Qed.

(** Bytes up to and including one that is no backslash do not count. *)
Lemma trailing_backslashes_skip (l1 l2 : list Z) (c : Z) :
  c <> chr "\" ->
  trailing_backslashes (l1 ++ c :: l2) = trailing_backslashes l2.
Proof.
  intros Hc. unfold trailing_backslashes.
  rewrite rev_app_distr. cbn [rev]. rewrite <- !app_assoc. cbn [app].
  by apply leading_backslashes_stop.
Qed.

Lemma trailing_backslashes_cons (c : Z) (t : list Z) :
  c <> chr "\" -> trailing_backslashes (c :: t) = trailing_backslashes t.
Proof. apply (trailing_backslashes_skip [] t c). Qed.

Lemma trailing_backslashes_cons2 (x c : Z) (t : list Z) :
  c <> chr "\" -> trailing_backslashes (x :: c :: t) = trailing_backslashes t.
Proof. apply (trailing_backslashes_skip [x] t c). Qed.

Lemma trailing_backslashes_run (run rest : list Z) :
  Forall (fun c => c <> chr "\") run ->
  trailing_backslashes (run ++ rest) = trailing_backslashes rest.
Proof.
  induction 1 as [|c run Hc _ IH]; [done|]. cbn [app].
  by rewrite trailing_backslashes_cons.
Qed.

Lemma trailing_backslashes_escaped (t : list Z) :
  Nat.odd (trailing_backslashes (chr "\" :: chr "\" :: t)) =
  Nat.odd (trailing_backslashes t).
Proof.
  unfold trailing_backslashes. cbn [rev]. rewrite <- app_assoc. cbn [app].
  apply leading_backslashes_two_more.
Qed.

Lemma digit_not_backslash (digit : Z -> option Z) (run : list Z) :
  digit (chr "\") = None ->
  Forall (fun c => is_Some (digit c)) run ->
  Forall (fun c => c <> chr "\") run.
Proof.
  intros Hbs Hrun. eapply Forall_impl; [exact Hrun|].
  intros c [v Hv] ->. congruence.
Qed.

(** The loop throws exactly on an odd number of backslashes at the end:
    each backslash escapes the next one, and the last is left alone. *)
Lemma resolve_outcome (s : list Z) :
  if Nat.odd (trailing_backslashes s) then resolve s = Throw invalid_escape
  else exists r, resolve s = Ok r.
Proof.
  remember (length s) as n eqn:Hn. revert s Hn.
  induction n as [n IH] using lt_wf_ind. intros s ->.
  assert (forall t pre,
            (length t < length s)%nat ->
            Nat.odd (trailing_backslashes s) = Nat.odd (trailing_backslashes t) ->
            resolve s = (pre ++.) <$> resolve t ->
            if Nat.odd (trailing_backslashes s)
            then resolve s = Throw invalid_escape
            else exists r, resolve s = Ok r) as Hrec.
  { intros t pre Hlen Hodd Hres. specialize (IH _ Hlen t eq_refl).
    rewrite Hres, Hodd. destruct (Nat.odd (trailing_backslashes t)).
    - by rewrite IH.
    - destruct IH as [r ->]. by eexists. }
  destruct s as [|c t]; [by exists []|].
  destruct (Z.eq_dec c (chr "\")) as [->|Hc].
  2: { apply (Hrec t [c]); [cbn; lia| |by apply resolve_plain].
       by rewrite trailing_backslashes_cons. }
  destruct t as [|c' t']; [done|].
  destruct (simple_escape c') as [e|] eqn:Hs.
  { apply (Hrec t' [e]); [cbn; lia| |by apply resolve_simple].
    destruct (Z.eq_dec c' (chr "\")) as [->|Hc'].
    - apply trailing_backslashes_escaped.
    - by rewrite trailing_backslashes_cons2. }
  pose proof (simple_escape_None_not_backslash c' Hs) as Hc'.
  destruct (hex_intro c') eqn:Hh.
  - eapply Hrec; [| |by apply resolve_hex].
    + rewrite length_drop. cbn. lia.
    + rewrite trailing_backslashes_cons2 by done.
      rewrite <- (digit_run_drop is_hex t') at 1.
      rewrite trailing_backslashes_run; [done|].
      apply (digit_not_backslash is_hex); [done|apply digit_run_Forall].
  - eapply Hrec; [| |by apply resolve_octal].
    + rewrite length_drop. cbn. lia.
    + rewrite trailing_backslashes_cons2 by done.
      rewrite <- (trailing_backslashes_cons c' t') by done.
      rewrite <- (digit_run_drop is_digit (c' :: t')) at 1.
      rewrite trailing_backslashes_run; [done|].
      apply (digit_not_backslash is_digit); [done|apply digit_run_Forall].
Qed.

Lemma trailing_backslashes_last (s : list Z) :
  trailing_backslashes s <> 0%nat -> last s = Some (chr "\").
Proof.
  destruct s as [|x l _] using rev_ind; [done|].
  unfold trailing_backslashes. rewrite rev_unit, last_snoc.
  cbn [leading_backslashes].
  by destruct (Z.eqb_spec x (chr "\")) as [->|].
Qed.

(** A backslash at the end of a text need not be a lone one: in the text
    of two backslashes the last one is escaped by the first, and the text
    resolves to one backslash.  So a text may end in a backslash and
    resolve. *)
Lemma resolve_escaped_backslash_at_end :
  last (str "\\") = Some (chr "\") /\
  resolve (str "\\") = Ok (str "\") /\
  ~ (forall s, last s = Some (chr "\") -> exists e, resolve s = Throw e).
Proof.
  split; [done|split; [done|]]. intros H.
  destruct (H (str "\\") eq_refl) as [e He]. discriminate He.
Qed.

Lemma trailing_backslashes_snoc (t : list Z) :
  trailing_backslashes (t ++ [chr "\"]) = S (trailing_backslashes t).
Proof.
  unfold trailing_backslashes. rewrite rev_unit. cbn [leading_backslashes].
  by rewrite Z.eqb_refl.
Qed.

Lemma ends_in_backslash (s : list Z) :
  last s = Some (chr "\") -> exists t, s = t ++ [chr "\"].
Proof.
  destruct s as [|x l _] using rev_ind; [done|].
  rewrite last_snoc. intros [= ->]. by exists l.
Qed.

(** The throw is met at a backslash that nothing follows, once the text
    in front of it has been resolved. *)
Lemma resolve_throws_lone_backslash (s : list Z) :
  resolve s = Throw invalid_escape <->
  exists t r, s = t ++ [chr "\"] /\ resolve t = Ok r.
Proof.
  pose proof (resolve_outcome s) as H. split.
  - intros Hthrow. destruct (Nat.odd (trailing_backslashes s)) eqn:Hodd.
    2: { destruct H as [r H]. by rewrite H in Hthrow. }
    destruct (ends_in_backslash s) as [t ->].
    { apply trailing_backslashes_last. intros Hz. by rewrite Hz in Hodd. }
    rewrite trailing_backslashes_snoc, Nat.odd_succ, <- Nat.negb_odd in Hodd.
    pose proof (resolve_outcome t) as Ht.
    destruct (Nat.odd (trailing_backslashes t)); [done|].
    destruct Ht as [r Hr]. by exists t, r.
  - intros (t & r & -> & Hr). pose proof (resolve_outcome t) as Ht.
    destruct (Nat.odd (trailing_backslashes t)) eqn:Hoddt.
    { by rewrite Ht in Hr. }
    by rewrite trailing_backslashes_snoc, Nat.odd_succ, <- Nat.negb_odd, Hoddt in H.
Qed.

(** C5: [resolve_escape_sequence] throws (its one exception,
    [Invalid escape sequence...]) exactly when a backslash is the last
    character of the text with nothing following it, the scan having
    resolved the text in front of it: the text is a text that resolves,
    then one backslash.  That is the case exactly when the text ends in
    an odd number of backslashes (in an even number, each is one half of
    an escaped backslash); a text that throws ends in a backslash.  Every
    other text is resolved: the empty text to the empty text, and an
    [\x], [\u] or octal escape without a digit to one NUL byte.  Which
    texts throw and which resolve does not depend on what the number
    loops accumulate. *)
Theorem resolve_throws_iff_unescaped_backslash_at_end :
  (forall s,
     (resolve s = Throw invalid_escape <->
        exists t r, s = t ++ [chr "\"] /\ resolve t = Ok r) /\
     (resolve s = Throw invalid_escape <->
        Nat.odd (trailing_backslashes s) = true) /\
     ((exists r, resolve s = Ok r) <->
        Nat.odd (trailing_backslashes s) = false) /\
     (forall e, resolve s = Throw e ->
        e = invalid_escape /\ last s = Some (chr "\"))) /\
  resolve [] = Ok [] /\
  (forall c rest,
     hex_intro c = true -> digit_run is_hex rest = [] ->
     resolve (chr "\" :: c :: rest) = (0 ::.) <$> resolve rest) /\
  (forall c rest,
     simple_escape c = None -> hex_intro c = false -> is_digit c = None ->
     resolve (chr "\" :: c :: rest) = (0 ::.) <$> resolve (c :: rest)).
Proof.
  split; [|split; [done|split]].
  - intros s. split; [apply resolve_throws_lone_backslash|].
    pose proof (resolve_outcome s) as H.
    destruct (Nat.odd (trailing_backslashes s)) eqn:Hodd.
    + split; [by rewrite H|]. split.
      * rewrite H. split; [by intros [r ?]|done].
      * rewrite H. intros e [= <-]. split; [done|].
        apply trailing_backslashes_last. intros Hz. by rewrite Hz in Hodd.
    + destruct H as [r H]. rewrite H. split; [done|]. split; [|done].
      split; [done|by exists r].
  - intros c rest Hh Hrun.
    assert (simple_escape c = None) as Hs.
    { unfold hex_intro in Hh. apply orb_prop in Hh.
      by destruct Hh as [->%Z.eqb_eq | ->%Z.eqb_eq]. }
    by rewrite resolve_hex, Hrun by done.
  - intros c rest Hs Hh Hd. rewrite resolve_octal by done.
    cbn [digit_run]. by rewrite Hd.
Qed.

(** ** [resolve_escape_sequence]: octal and hexadecimal escapes *)

Lemma hex_intro_not_simple (c : Z) : hex_intro c = true -> simple_escape c = None.
Proof.
  unfold hex_intro. intros H. apply orb_prop in H.
  by destruct H as [->%Z.eqb_eq | ->%Z.eqb_eq].
Qed.

Lemma digit_not_simple (c : Z) :
  is_Some (is_digit c) -> simple_escape c = None /\ hex_intro c = false.
Proof.
  intros [v Hv]. unfold is_digit in Hv.
  destruct (Z.leb_spec (chr "0") c), (Z.leb_spec c (chr "9"));
    cbn [andb] in Hv; try done.
  change (chr "0") with 48 in *. change (chr "9") with 57 in *.
  unfold simple_escape, hex_intro.
  repeat match goal with
         | |- context [c =? ?b] => destruct (Z.eqb_spec c b) as [E|_];
                                   [vm_compute in E; lia|]
         end.
  done.
Qed.

Lemma drop_nonempty_lt (s : list Z) (i : nat) :
  drop i s <> [] -> (i < length s)%nat.
Proof.
  intros H. destruct (Nat.lt_ge_cases i (length s)) as [|Hge]; [done|].
  by rewrite drop_ge in H.
Qed.

(** The iteration that meets an octal escape, wherever the loop is. *)
Lemma resolve_body_octal_escape (s : list Z) (i : nat) (r : list Z)
    (digits rest : list Z) (c : Z) (t : list Z) :
  Forall (fun c => is_Some (is_digit c)) digits ->
  radix_value is_digit 8 digits < 2 ^ 31 ->
  digit_run is_digit rest = [] ->
  digits ++ rest = c :: t -> simple_escape c = None -> hex_intro c = false ->
  drop i s = chr "\" :: digits ++ rest ->
  resolve_body s (length s) (i, r) =
    Ok ((i + (1 + length digits))%nat,
        r ++ encode_codepoint (radix_value is_digit 8 digits)).
Proof.
  intros Hdigits Hsmall Hrest Hc Hs Hh Hdrop.
  rewrite resolve_body_step by (apply drop_nonempty_lt; by rewrite Hdrop).
  rewrite Hdrop. unfold escape_step. rewrite Z.eqb_refl, Hc, Hs, Hh, <- Hc.
  by rewrite digit_run_app, octal_value by done.
Qed.

(** The iteration that meets a hexadecimal escape. *)
Lemma resolve_body_hex_escape (s : list Z) (i : nat) (r : list Z)
    (digits rest : list Z) (c : Z) :
  hex_intro c = true ->
  Forall (fun c => is_Some (is_hex c)) digits ->
  radix_value is_hex 16 digits < 2 ^ 31 ->
  digit_run is_hex rest = [] ->
  drop i s = chr "\" :: c :: digits ++ rest ->
  resolve_body s (length s) (i, r) =
    Ok ((i + (2 + length digits))%nat,
        r ++ encode_codepoint (radix_value is_hex 16 digits)).
Proof.
  intros Hh Hdigits Hsmall Hrest Hdrop.
  rewrite resolve_body_step by (apply drop_nonempty_lt; by rewrite Hdrop).
  rewrite Hdrop. unfold escape_step.
  rewrite Z.eqb_refl, (hex_intro_not_simple c Hh), Hh.
  by rewrite digit_run_app, hex_value by done.
Qed.

(** An octal escape anywhere behind text that holds no backslash. *)
Lemma resolve_octal_escape (plain digits rest : list Z) (c : Z) (t : list Z) :
  Forall (fun c => c <> chr "\") plain ->
  Forall (fun c => is_Some (is_digit c)) digits ->
  radix_value is_digit 8 digits < 2 ^ 31 ->
  digit_run is_digit rest = [] ->
  digits ++ rest = c :: t -> simple_escape c = None -> hex_intro c = false ->
  resolve (plain ++ chr "\" :: digits ++ rest) =
    (fun r => plain ++ encode_codepoint (radix_value is_digit 8 digits) ++ r)
      <$> resolve rest.
Proof.
  intros Hplain Hdigits Hsmall Hrest Hc Hs Hh.
  rewrite resolve_copy, Hc, resolve_octal, <- Hc by done.
  rewrite digit_run_app, drop_app_length, octal_value by done.
  by rewrite fmap_compose_result.
Qed.

(** A hexadecimal escape anywhere behind text that holds no backslash. *)
Lemma resolve_hex_escape (plain digits rest : list Z) (c : Z) :
  Forall (fun c => c <> chr "\") plain ->
  hex_intro c = true ->
  Forall (fun c => is_Some (is_hex c)) digits ->
  radix_value is_hex 16 digits < 2 ^ 31 ->
  digit_run is_hex rest = [] ->
  resolve (plain ++ chr "\" :: c :: digits ++ rest) =
    (fun r => plain ++ encode_codepoint (radix_value is_hex 16 digits) ++ r)
      <$> resolve rest.
Proof.
  intros Hplain Hh Hdigits Hsmall Hrest.
  rewrite resolve_copy, resolve_hex by (done || by apply hex_intro_not_simple).
  rewrite digit_run_app, drop_app_length, hex_value by done.
  by rewrite fmap_compose_result.
Qed.

(** C6: a backslash followed by a character that is none of the single
    character escapes and neither [x] nor [u] begins an octal escape.  All
    decimal digits that follow the backslash are consumed, 8 and 9
    included, the digit string is read with radix 8, and the encoding of
    that code point is appended; with no digit the escape is the code
    point 0.  The number is accumulated in an [int], so this is stated of
    the digit strings whose radix-8 value is below 2^31, where the
    accumulation does not overflow.  It holds for the iteration of the
    loop that meets the escape, at any index, and so for a text in which
    the escape follows text without backslashes.  [\101] gives [A];
    [\8], [\9] and [\18] give the bytes 8, 9 and 16. *)
Theorem octal_escape_accepts_decimal_digits :
  (forall s i r digits rest c t,
     Forall (fun c => is_Some (is_digit c)) digits ->
     radix_value is_digit 8 digits < 2 ^ 31 ->
     digit_run is_digit rest = [] ->
     digits ++ rest = c :: t -> simple_escape c = None -> hex_intro c = false ->
     drop i s = chr "\" :: digits ++ rest ->
     resolve_body s (length s) (i, r) =
       Ok ((i + (1 + length digits))%nat,
           r ++ encode_codepoint (radix_value is_digit 8 digits))) /\
  (forall plain digits rest c t,
     Forall (fun c => c <> chr "\") plain ->
     Forall (fun c => is_Some (is_digit c)) digits ->
     radix_value is_digit 8 digits < 2 ^ 31 ->
     digit_run is_digit rest = [] ->
     digits ++ rest = c :: t -> simple_escape c = None -> hex_intro c = false ->
     resolve (plain ++ chr "\" :: digits ++ rest) =
       (fun r => plain ++ encode_codepoint (radix_value is_digit 8 digits) ++ r)
         <$> resolve rest) /\
  (forall c, is_Some (is_digit c) <-> chr "0" <= c <= chr "9") /\
  (forall c v, is_digit c = Some v <-> chr "0" <= c <= chr "9" /\ v = c - chr "0") /\
  is_digit (chr "8") = Some 8 /\ is_digit (chr "9") = Some 9 /\
  radix_value is_digit 8 (str "101") = 65 /\
  radix_value is_digit 8 (str "18") = 16 /\
  resolve (str "\101") = Ok (str "A") /\
  resolve (str "\8") = Ok [8] /\
  resolve (str "\9") = Ok [9] /\
  resolve (str "a\18z") = Ok [chr "a"; 16; chr "z"].
Proof.
  split; [apply resolve_body_octal_escape|].
  split; [apply resolve_octal_escape|].
  split; [|split; [|by repeat split]].
  - intros c. unfold is_digit.
    destruct (Z.leb_spec (chr "0") c), (Z.leb_spec c (chr "9")); cbn [andb];
      split; try (by eauto); try (by intros [? ?]); lia.
  - intros c v. unfold is_digit.
    destruct (Z.leb_spec (chr "0") c), (Z.leb_spec c (chr "9")); cbn [andb];
      split; try (by intros [= <-]); try (by intros [_ ->]); try done; lia.
Qed.

(** C10: a [\x] or [\u] escape whose hex digits denote a value in the
    surrogate range [[0xD800, 0xE000)] or in [[0x110000, 2^31)] appends
    nothing: [encode_codepoint] returns the empty string, the iteration
    that meets the escape (at any index) leaves the output as it is and
    goes on behind the digits, and a text in which the escape follows text
    without backslashes resolves to that text and what the text behind the
    escape resolves to. *)
Theorem hex_escape_out_of_range_dropped
    (plain digits rest : list Z) (c : Z) :
  Forall (fun c => c <> chr "\") plain ->
  hex_intro c = true ->
  Forall (fun c => is_Some (is_hex c)) digits ->
  digit_run is_hex rest = [] ->
  0xD800 <= radix_value is_hex 16 digits < 0xE000 \/
  0x110000 <= radix_value is_hex 16 digits < 2 ^ 31 ->
  encode_codepoint (to_char32 (radix_value is_hex 16 digits)) = [] /\
  (forall s i r, drop i s = chr "\" :: c :: digits ++ rest ->
     resolve_body s (length s) (i, r) = Ok ((i + (2 + length digits))%nat, r)) /\
  resolve (plain ++ chr "\" :: c :: digits ++ rest) = (plain ++.) <$> resolve rest /\
  forall r, resolve rest = Ok r ->
    resolve (plain ++ chr "\" :: c :: digits ++ rest) = Ok (plain ++ r).
Proof.
  intros Hplain Hh Hdigits Hrest Hv.
  set (v := radix_value is_hex 16 digits) in *.
  assert (v < 2 ^ 31) as Hsmall.
  { change (2 ^ 31) with 2147483648 in *. lia. }
  assert (to_char32 v = v) as Hv32.
  { unfold to_char32. apply Z.mod_small. lia. }
  assert (encode_codepoint v = []) as Henc.
  { rewrite encode_codepoint_bytes. unfold encode_bytes.
    case_ltb; cbn [orb andb]; try done; lia. }
  assert (resolve (plain ++ chr "\" :: c :: digits ++ rest)
          = (plain ++.) <$> resolve rest) as Hres.
  { rewrite (resolve_hex_escape plain digits rest c) by done.
    fold v. rewrite Henc. by apply fmap_ext_result. }
  split; [by rewrite Hv32|]. split; [|split; [done|]].
  - intros s i r Hdrop.
    rewrite (resolve_body_hex_escape s i r digits rest c) by done.
    fold v. by rewrite Henc, app_nil_r.
  - intros r Hr. by rewrite Hres, Hr.
Qed.

(** ** Trie: what the constructor builds *)

Lemma prefix_is_take (k p : list Z) : k `prefix_of` p -> k = take (length k) p.
Proof. intros [x ->]. by rewrite take_app_length. Qed.

Lemma Trie_add_prefix_insert (item : list Z) (dic : gmap (list Z) Info) (len : nat) :
  (len <= length item)%nat ->
  Trie_add_prefix item dic len =
    <[take len item := visit item (dic !! take len item) (take len item)]> dic.
Proof.
  intros Hlen. unfold Trie_add_prefix, visit.
  rewrite length_take, Nat.min_l by done.
  destruct (dic !! take len item) as [it|]; [|done].
  by destruct (len =? length item)%nat.
Qed.

Lemma Trie_add_prefixes_lookup (item : list Z) (dic : gmap (list Z) Info)
    (m : nat) (k : list Z) :
  (m <= length item)%nat ->
  fold_left (Trie_add_prefix item) (seq 1 m) dic !! k =
    if bool_decide (k <> [] /\ k `prefix_of` item /\ (length k <= m)%nat)
    then Some (visit item (dic !! k) k)
    else dic !! k.
Proof.
  revert k. induction m as [|m IH]; intros k Hm.
  - cbn [seq fold_left]. rewrite bool_decide_eq_false_2; [done|].
    intros (Hne & _ & Hl). destruct k; [done|cbn in Hl; lia].
  - rewrite seq_S, fold_left_app. cbn [fold_left Nat.add].
    set (dic_m := fold_left (Trie_add_prefix item) (seq 1 m) dic) in *.
    rewrite Trie_add_prefix_insert by done.
    set (sv := take (S m) item).
    assert (length sv = S m) as Hsv
      by (unfold sv; rewrite length_take; lia).
    assert (dic_m !! sv = dic !! sv) as Hold.
    { rewrite IH by lia. rewrite bool_decide_eq_false_2; [done|].
      intros (_ & _ & Hl). lia. }
    rewrite Hold. destruct (decide (k = sv)) as [->|Hk].
    + rewrite lookup_insert_eq, bool_decide_eq_true_2; [done|].
      split; [by intros E; rewrite E in Hsv|].
      split; [apply prefix_take|lia].
    + rewrite lookup_insert_ne, IH by (done || lia).
      apply (f_equal (fun b : bool => if b then _ else _)).
      apply bool_decide_ext. split; intros (Hne & Hp & Hl); (split; [done|split; [done|]]).
      * lia.
      * destruct (decide (length k = S m)) as [E|]; [|lia].
        destruct Hk. rewrite (prefix_is_take k item Hp). unfold sv. by rewrite E.
Qed.

Lemma Trie_add_item_lookup (item : list Z) (dic : gmap (list Z) Info) (k : list Z) :
  Trie_add_item dic item !! k =
    if bool_decide (k <> []) && bool_decide (k `prefix_of` item)
    then Some (visit item (dic !! k) k)
    else dic !! k.
Proof.
  unfold Trie_add_item. rewrite Trie_add_prefixes_lookup by done.
  destruct (decide (k = [])) as [->|Hne].
  { rewrite bool_decide_eq_false_2 by (intros [? _]; congruence).
    by rewrite (bool_decide_eq_false_2 ([] <> [])) by congruence. }
  rewrite (bool_decide_eq_true_2 (k <> [])) by done. cbn [andb].
  apply (f_equal (fun b : bool => if b then _ else _)).
  apply bool_decide_ext. split; [by intros (_ & ? & _)|].
  intros Hp. split; [done|]. split; [done|]. by apply prefix_length.
Qed.

Lemma has_prefix_snoc (P : list (list Z)) (item k : list Z) :
  has_prefix (P ++ [item]) k = has_prefix P k || bool_decide (k `prefix_of` item).
Proof. unfold has_prefix. rewrite existsb_app. cbn. by rewrite orb_false_r. Qed.

Lemma is_pattern_snoc (P : list (list Z)) (item k : list Z) :
  is_pattern (P ++ [item]) k = is_pattern P k || bool_decide (item = k).
Proof. unfold is_pattern. rewrite existsb_app. cbn. by rewrite orb_false_r. Qed.

Lemma dead_end_snoc (P : list (list Z)) (item k : list Z) :
  dead_end (P ++ [item]) k =
    dead_end P k && implb (bool_decide (k `prefix_of` item)) (bool_decide (item = k)).
Proof. unfold dead_end. rewrite forallb_app. cbn. by rewrite andb_true_r. Qed.

(** A key that is a prefix of no pattern is no pattern, and nothing
    extends it. *)
Lemma has_prefix_false (P : list (list Z)) (k : list Z) :
  has_prefix P k = false -> dead_end P k = true /\ is_pattern P k = false.
Proof.
  unfold has_prefix, dead_end, is_pattern.
  induction P as [|p P IH]; [done|]. cbn [existsb forallb]. intros H.
  apply orb_false_elim in H as [Hp HP]. destruct (IH HP) as [-> ->].
  rewrite Hp. cbn [implb andb]. split; [done|]. rewrite orb_false_r.
  apply bool_decide_eq_false_2. intros ->.
  by apply bool_decide_eq_false_1 in Hp.
Qed.

Lemma last_iff_equal (item k : list Z) :
  k `prefix_of` item -> (length k =? length item)%nat = bool_decide (item = k).
Proof.
  intros Hp. destruct (Nat.eqb_spec (length k) (length item)) as [E|E].
  - rewrite bool_decide_eq_true_2; [done|].
    symmetry. apply prefix_length_eq; [done|lia].
  - rewrite bool_decide_eq_false_2; [done|]. by intros ->.
Qed.

Lemma Trie_add_item_spec (P : list (list Z)) (item : list Z)
    (dic : gmap (list Z) Info) :
  (forall k, dic !! k = trie_spec P k) ->
  forall k, Trie_add_item dic item !! k = trie_spec (P ++ [item]) k.
Proof.
  intros Hdic k. rewrite Trie_add_item_lookup, Hdic. unfold trie_spec.
  rewrite has_prefix_snoc, is_pattern_snoc, dead_end_snoc.
  destruct (decide (k = [])) as [->|Hne].
  { by rewrite (bool_decide_eq_false_2 ([] <> [])) by congruence. }
  rewrite (bool_decide_eq_true_2 (k <> [])) by done. cbn [andb].
  destruct (decide (k `prefix_of` item)) as [Hp|Hp].
  - rewrite (bool_decide_eq_true_2 (k `prefix_of` item)) by done.
    rewrite orb_true_r. cbn [implb]. unfold visit.
    rewrite (last_iff_equal item k Hp).
    destruct (has_prefix P k) eqn:HP.
    + destruct (bool_decide (item = k));
        by rewrite ?andb_true_r, ?andb_false_r, ?orb_true_r, ?orb_false_r.
    + destruct (has_prefix_false P k HP) as [-> ->]. done.
  - rewrite (bool_decide_eq_false_2 (k `prefix_of` item)) by done.
    rewrite orb_false_r. cbn [implb]. rewrite andb_true_r.
    rewrite (bool_decide_eq_false_2 (item = k)) by (by intros ->).
    by rewrite orb_false_r.
Qed.

Lemma Trie_fold_spec (items P : list (list Z)) (dic : gmap (list Z) Info) :
  (forall k, dic !! k = trie_spec P k) ->
  forall k, fold_left Trie_add_item items dic !! k = trie_spec (P ++ items) k.
Proof.
  revert P dic. induction items as [|item items IH]; intros P dic Hdic k.
  - by rewrite app_nil_r.
  - cbn [fold_left].
    rewrite (IH (P ++ [item])) by (by apply Trie_add_item_spec).
    by rewrite <- app_assoc.
Qed.

(** The map the constructor builds holds, at every key, the record the
    specification describes. *)
Lemma Trie_of_lookup (P : list (list Z)) (k : list Z) :
  dic_ (Trie_of P) !! k = trie_spec P k.
Proof.
  unfold Trie_of. cbn [dic_].
  rewrite (Trie_fold_spec P []); [done|].
  intros k'. rewrite lookup_empty. unfold trie_spec. cbn.
  by rewrite andb_false_r.
Qed.

(** The three parts of a record, read as statements about the patterns. *)
Lemma has_prefix_true (P : list (list Z)) (k : list Z) :
  has_prefix P k = true <-> exists p, p ∈ P /\ k `prefix_of` p.
Proof.
  unfold has_prefix. rewrite existsb_exists. split.
  - intros (p & Hin & Hp). exists p. split; [by apply list_elem_of_In|].
    by apply bool_decide_eq_true_1 in Hp.
  - intros (p & Hin & Hp). exists p. split; [by apply list_elem_of_In|].
    by apply bool_decide_eq_true_2.
Qed.

Lemma is_pattern_true (P : list (list Z)) (k : list Z) :
  is_pattern P k = true <-> k ∈ P.
Proof.
  unfold is_pattern. rewrite existsb_exists. split.
  - intros (p & Hin & Hp). apply bool_decide_eq_true_1 in Hp. subst p.
    by apply list_elem_of_In.
  - intros Hin. exists k. split; [by apply list_elem_of_In|].
    by apply bool_decide_eq_true_2.
Qed.

Lemma dead_end_true (P : list (list Z)) (k : list Z) :
  dead_end P k = true <-> forall p, p ∈ P -> k `prefix_of` p -> p = k.
Proof.
  unfold dead_end. rewrite forallb_forall. split.
  - intros H p Hin Hp. specialize (H p (proj1 (list_elem_of_In _ _) Hin)).
    rewrite (bool_decide_eq_true_2 _ Hp) in H. cbn [implb] in H.
    by apply bool_decide_eq_true_1 in H.
  - intros H p Hin. destruct (decide (k `prefix_of` p)) as [Hp|Hp].
    + rewrite (bool_decide_eq_true_2 _ Hp). cbn [implb].
      apply bool_decide_eq_true_2, H; [by apply list_elem_of_In|done].
    + by rewrite (bool_decide_eq_false_2 _ Hp).
Qed.

Lemma bool_eq_iff (a b : bool) : (a = true <-> b = true) -> a = b.
Proof. destruct a, b; intuition congruence. Qed.

(** The records depend on the set of patterns only. *)
Lemma trie_spec_same_patterns (P1 P2 : list (list Z)) (k : list Z) :
  (forall p, p ∈ P1 <-> p ∈ P2) -> trie_spec P1 k = trie_spec P2 k.
Proof.
  intros Hsame. unfold trie_spec.
  assert (has_prefix P1 k = has_prefix P2 k) as ->.
  { apply bool_eq_iff. rewrite !has_prefix_true.
    split; intros (p & Hin & Hp); exists p; (split; [by apply Hsame|done]). }
  assert (is_pattern P1 k = is_pattern P2 k) as ->.
  { apply bool_eq_iff. by rewrite !is_pattern_true. }
  assert (dead_end P1 k = dead_end P2 k) as ->; [|done].
  apply bool_eq_iff. rewrite !dead_end_true.
  split; intros H p Hin; apply H; by apply Hsame.
Qed.

Lemma Trie_of_same_patterns (P1 P2 : list (list Z)) :
  (forall p, p ∈ P1 <-> p ∈ P2) -> Trie_of P1 = Trie_of P2.
Proof.
  intros Hsame.
  assert (dic_ (Trie_of P1) = dic_ (Trie_of P2)) as Hdic.
  { apply map_eq. intros k. rewrite !Trie_of_lookup.
    by apply trie_spec_same_patterns. }
  destruct (Trie_of P1), (Trie_of P2). cbn in Hdic. by subst.
Qed.

(** ** Trie: [match] *)

Lemma match_body_eq (t : Trie) (text : list Z) (match_len : nat) (d : bool)
    (len : nat) :
  match_body t text (match_len, d, len) =
    match dic_ t !! take len text with
    | None => Ok (match_len, true, S len)
    | Some it =>
        Ok (if match_ it then len else match_len,
            if done it then true else d, S len)
    end.
Proof. reflexivity. Qed.

(** [match] returns: its loop runs at most [text_len] times. *)
Lemma Trie_match_returns (t : Trie) (text : list Z) (text_len : nat) :
  exists r, Trie_match t text text_len = Ok r.
Proof.
  unfold Trie_match.
  destruct (while_ (S text_len) (match_cond text_len) (match_body t text)
              (0%nat, false, 1%nat)) as [st|e|] eqn:Hw.
  - by eexists.
  - exfalso. revert Hw.
    generalize (S text_len) at 1. intros fuel. generalize (0%nat, false, 1%nat).
    induction fuel as [|fuel IH]; intros [[ml d] len]; [done|].
    rewrite while_step. destruct (match_cond _ _); [|done].
    rewrite match_body_eq.
    destruct (dic_ t !! take len text); rewrite bind_Ok; apply IH.
  - exfalso. revert Hw.
    apply (while_terminates _ _ (fun _ => True)
             (fun st => (S text_len - snd st)%nat)); [|done|cbn; lia].
    intros [[ml d] len] _ Hc. right.
    unfold match_cond in Hc. apply andb_prop in Hc as [_ Hlen].
    apply Nat.leb_le in Hlen. rewrite match_body_eq.
    destruct (dic_ t !! take len text); eexists; (split; [done|]);
      (split; [done|cbn [snd]; lia]).
Qed.

Lemma prefix_take_prefix (p s : list Z) (len : nat) :
  p `prefix_of` s -> (len <= length p)%nat -> take len s `prefix_of` p.
Proof.
  intros [x ->] Hlen. rewrite take_app_le by done. apply prefix_take.
Qed.

Section LongestMatch.
Context (P : list (list Z)) (s : list Z).

Lemma match_inv_preserved (st st' : nat * bool * nat) :
  match_inv P s st -> match_cond (length s) st = true ->
  match_body (Trie_of P) s st = Ok st' -> match_inv P s st'.
Proof.
  destruct st as [[ml d] len]. intros (Hlen & Hml & Hwit & Hmax & Hdone) Hc.
  unfold match_cond in Hc. apply andb_prop in Hc as [Hd Hle].
  apply negb_true_iff in Hd. subst d. apply Nat.leb_le in Hle.
  rewrite match_body_eq, Trie_of_lookup. unfold trie_spec.
  set (sv := take len s).
  assert (length sv = len) as Hsv by (unfold sv; rewrite length_take; lia).
  assert (forall p, p `prefix_of` s -> length p = len -> p = sv) as Hexact.
  { intros p Hp E. unfold sv. rewrite <- E. by apply prefix_is_take. }
  rewrite (bool_decide_eq_true_2 (sv <> []))
    by (intros E; rewrite E in Hsv; cbn in Hsv; lia).
  cbn [andb]. destruct (has_prefix P sv) eqn:HP.
  - intros [= <-]. cbn [done match_].
    split; [lia|]. split; [destruct (is_pattern P sv); lia|].
    split; [|split].
    + destruct (is_pattern P sv) eqn:Hpat; [|done].
      right. by apply is_pattern_true.
    + intros p Hin Hp Hl.
      destruct (decide (length p = len)) as [E|E].
      * rewrite (proj2 (is_pattern_true P sv)); [lia|].
        by rewrite <- (Hexact p Hp E).
      * specialize (Hmax p Hin Hp ltac:(lia)).
        destruct (is_pattern P sv); lia.
    + intros Hd p Hin Hp.
      destruct (dead_end P sv) eqn:Hde; [|done].
      destruct (Nat.lt_ge_cases (length p) (S len)) as [|Hge]; [done|].
      rewrite dead_end_true in Hde.
      rewrite (Hde p Hin (prefix_take_prefix p s len Hp ltac:(lia))) in Hge.
      lia.
  - intros [= <-]. split; [lia|]. split; [lia|]. split; [done|].
    assert (forall p, p ∈ P -> p `prefix_of` s -> (length p < len)%nat) as Hno.
    { intros p Hin Hp.
      destruct (Nat.lt_ge_cases (length p) len) as [|Hge]; [done|].
      assert (has_prefix P sv = true) as HP'; [|congruence].
      apply has_prefix_true. exists p. split; [done|].
      by apply prefix_take_prefix. }
    split.
    + intros p Hin Hp _. apply Hmax; [done|done|by apply Hno].
    + intros _ p Hin Hp. specialize (Hno p Hin Hp). lia.
Qed.

Lemma Trie_match_longest (r : nat) :
  Trie_match (Trie_of P) s (length s) = Ok r ->
  (forall p, p ∈ P -> p `prefix_of` s -> (length p <= r)%nat) /\
  ((exists p, p ∈ P /\ p `prefix_of` s /\ length p = r) \/
   (r = 0%nat /\ forall p, p ∈ P -> ~ p `prefix_of` s)).
Proof.
  unfold Trie_match.
  destruct (while_ _ _ _ _) as [[[ml d] len]|e|] eqn:Hw; try done.
  rewrite bind_Ok. cbn [fst]. intros [= <-].
  apply (while_invariant _ _ (match_inv P s)) in Hw as [Hinv Hc].
  2: { intros st st'. apply match_inv_preserved. }
  2: { cbn. split; [lia|]. split; [lia|]. split; [by left|].
       split; [intros; lia|done]. }
  destruct Hinv as (Hlen & Hml & Hwit & Hmax & Hdone).
  assert (forall p, p ∈ P -> p `prefix_of` s -> (length p < len)%nat) as Hall.
  { unfold match_cond in Hc. apply andb_false_iff in Hc as [Hd|Hl].
    - apply negb_false_iff in Hd. by apply Hdone.
    - apply Nat.leb_gt in Hl. intros p _ Hp%prefix_length. lia. }
  split; [intros p Hin Hp; apply Hmax; auto|].
  destruct Hwit as [->|Hwit].
  - destruct (decide ([] ∈ P)) as [Hnil|Hnil].
    + left. exists []. split; [done|]. split; [apply prefix_nil|done].
    + right. split; [done|]. intros p Hin Hp.
      specialize (Hmax p Hin Hp (Hall p Hin Hp)).
      destruct p; [done|cbn in Hmax; lia].
  - left. exists (take ml s). split; [done|]. split; [apply prefix_take|].
    rewrite length_take. lia.
Qed.
End LongestMatch.

(** C1: for every list of patterns [P] and every text [s], [match (s, |s|)]
    on the trie built from [P] returns the length of the longest element
    of [P] that is a prefix of [s], and 0 when no element is. *)
Theorem Trie_match_longest_prefix (P : list (list Z)) (s : list Z) :
  exists r,
    Trie_match (Trie_of P) s (length s) = Ok r /\
    (forall p, p ∈ P -> p `prefix_of` s -> (length p <= r)%nat) /\
    ((exists p, p ∈ P /\ p `prefix_of` s /\ length p = r) \/
     (r = 0%nat /\ forall p, p ∈ P -> ~ p `prefix_of` s)).
Proof.
  destruct (Trie_match_returns (Trie_of P) s (length s)) as [r Hr].
  exists r. split; [done|]. by apply Trie_match_longest.
Qed.

(** C8: the trie does not depend on the order of the patterns nor on
    repetitions among them.  Two pattern vectors with the same elements
    build the same map, so [match] returns, and returns the same, on both
    tries for every [text] and [text_len]. *)
Theorem Trie_order_independent (P1 P2 : list (list Z)) :
  (forall p, p ∈ P1 <-> p ∈ P2) ->
  Trie_of P1 = Trie_of P2 /\
  forall text text_len,
    Trie_match (Trie_of P1) text text_len = Trie_match (Trie_of P2) text text_len /\
    exists r, Trie_match (Trie_of P1) text text_len = Ok r.
Proof.
  intros Hsame. pose proof (Trie_of_same_patterns P1 P2 Hsame) as Heq.
  split; [done|]. intros text text_len. rewrite Heq.
  split; [done|apply Trie_match_returns].
Qed.

Lemma Trie_order_independent_witness :
  Trie_match (Trie_of [str "if"; str "in"; str "int"]) (str "integer") 7 =
  Trie_match (Trie_of [str "int"; str "in"; str "if"; str "in"]) (str "integer") 7 /\
  exists r,
    Trie_match (Trie_of [str "if"; str "in"; str "int"]) (str "integer") 7 = Ok r.
Proof.
  refine (proj2 (Trie_order_independent
           [str "if"; str "in"; str "int"]
           [str "int"; str "in"; str "if"; str "in"] _) (str "integer") 7%nat).
  intros p. rewrite !elem_of_cons, !elem_of_nil. tauto.
Defined.

(** ** The examples of the specification *)

Example encode_boundaries :
  map (fun cp => length (encode_codepoint cp))
    [0x7F; 0x80; 0x7FF; 0x800; 0xD7FF; 0xD800; 0xDFFF; 0xE000; 0xFFFF;
     0x10000; 0x10FFFF; 0x110000]
  = [1; 2; 2; 3; 3; 0; 0; 3; 3; 4; 4; 0]%nat.
Proof. reflexivity. Qed.

Example encode_euro : encode_codepoint 0x20AC = [0xE2; 0x82; 0xAC].
Proof. reflexivity. Qed.

Example decode_euro :
  decode_codepoint [0xE2; 0x82; 0xAC] 3 = Some (3%nat, 0x20AC).
Proof. reflexivity. Qed.

Example codepoint_count_abc : codepoint_count 4 (str "abc") 3 = Ok 3.
Proof. reflexivity. Qed.

Example resolve_newline : resolve (str "a\nb") = Ok [chr "a"; 10; chr "b"].
Proof. reflexivity. Qed.

Example resolve_hex_41 : resolve (str "\x41") = Ok (str "A").
Proof. reflexivity. Qed.

Example resolve_octal_101 : resolve (str "\101") = Ok (str "A").
Proof. reflexivity. Qed.

Example resolve_backslash_alone : resolve (str "\") = Throw invalid_escape.
Proof. reflexivity. Qed.

Example resolve_empty : resolve (str "") = Ok (str "").
Proof. reflexivity. Qed.

Example resolve_no_digit :
  resolve (str "\xg") = Ok [0; chr "g"] /\ resolve (str "\a") = Ok [0; chr "a"].
Proof. split; reflexivity. Qed.

Example match_keywords :
  let t := Trie_of [str "if"; str "in"; str "int"] in
  Trie_match t (str "integer") 7 = Ok 3%nat /\
  Trie_match t (str "in") 2 = Ok 2%nat /\
  Trie_match t (str "i") 1 = Ok 0%nat /\
  Trie_match t (str "xyz") 3 = Ok 0%nat.
Proof. by vm_compute. Qed.

(** * Further properties of the codec *)

Lemma lead_not_continuation (b : Z) :
  lead1 b \/ lead2 b \/ lead3 b \/ lead4 b -> ~ continuation b.
Proof.
  unfold lead1, lead2, lead3, lead4, continuation. intros H Hc.
  pose proof (land_mask_sub b 0xC0 0x80 eq_refl) as E80.
  pose proof (land_mask_sub b 0xE0 0xC0 eq_refl) as EE0.
  pose proof (land_mask_sub b 0xF0 0xC0 eq_refl) as EF0.
  pose proof (land_mask_sub b 0xF8 0xC0 eq_refl) as EF8.
  rewrite Hc in E80.
  destruct H as [H|[H|[H|H]]].
  - rewrite H in E80. discriminate E80.
  - rewrite H, Hc in EE0. discriminate EE0.
  - rewrite H, Hc in EF0. discriminate EF0.
  - rewrite H, Hc in EF8. discriminate EF8.
Qed.

(** The encoding of a valid scalar: a lead byte, then continuation
    bytes, as many as the boundary table says; read back at the head of any
    buffer, it gives the scalar and its length. *)
Lemma encode_valid_shape (v : Z) :
  valid_scalar v ->
  exists b0 tl,
    encode_codepoint v = b0 :: tl /\
    S (length tl) = encoded_length v /\
    ~ continuation b0 /\ Forall continuation tl /\
    (forall rest l, (encoded_length v <= l)%nat ->
       decode_codepoint (b0 :: tl ++ rest) l = Some (encoded_length v, v) /\
       codepoint_length (b0 :: tl ++ rest) l = encoded_length v).
Proof.
  clear int_overflow.
  intros [Hv Hs]. rewrite encode_codepoint_bytes.
  unfold encode_bytes, encoded_length.
  destruct (Z.ltb_spec v 0x80) as [H1|H1].
  { destruct (ascii_byte v) as [E L]; [lia|]. cbv zeta in E, L.
    eexists _, []. split; [done|]. split; [done|].
    split; [apply lead_not_continuation; by left|]. split; [constructor|].
    intros rest l Hl. cbn [app]. split.
    - rewrite decode_lead1; [by rewrite E|done|done].
    - eapply length_table_functional; [apply codepoint_length_in_table|].
      apply Row1; [lia|done]. }
  pose proof (sextet_range v 0 ltac:(lia)) as R0.
  pose proof (sextet_range v 6 ltac:(lia)) as R6.
  pose proof (sextet_range v 12 ltac:(lia)) as R12.
  pose proof (sextet_value v 0 ltac:(lia)) as V0.
  pose proof (sextet_value v 6 ltac:(lia)) as V6.
  pose proof (sextet_value v 12 ltac:(lia)) as V12.
  change (2 ^ 0) with 1 in V0. change (2 ^ 6) with 64 in V6.
  change (2 ^ 12) with 4096 in V12. rewrite Z.div_1_r in V0.
  destruct (continuation_sextet v 0) as (_ & C0 & P0 & _); [lia|].
  destruct (continuation_sextet v 6) as (_ & C6 & P6 & _); [lia|].
  destruct (continuation_sextet v 12) as (_ & C12 & P12 & _); [lia|].
  cbv zeta in P0, P6, P12, C0, C6, C12.
  destruct (Z.ltb_spec v 0x800) as [H2|H2].
  { destruct (lead2_of v) as (_ & L & P & _); [lia|]. cbv zeta in L, P.
    eexists _, [_]. split; [done|]. split; [done|].
    split; [apply lead_not_continuation; auto|]. split; [by repeat constructor|].
    intros rest l Hl. cbn [app]. split.
    - rewrite decode_lead2 by done. rewrite P, P0, pack2 by done.
      do 2 f_equal. rewrite V0. Z.div_mod_to_equations. lia.
    - eapply length_table_functional; [apply codepoint_length_in_table|].
      by apply Row2. }
  destruct (Z.ltb_spec v 0xD800) as [H3|H3],
           (Z.leb_spec 0xE000 v) as [H4|H4],
           (Z.ltb_spec v 0x10000) as [H5|H5]; cbn [orb andb]; try lia.
  1,2: destruct (lead3_of v) as (_ & L & P & _); [lia|]; cbv zeta in L, P;
       eexists _, [_; _]; split; [done|]; split; [done|];
       (split; [apply lead_not_continuation; auto|]);
       (split; [by repeat constructor|]);
       intros rest l Hl; cbn [app]; split;
       [ rewrite decode_lead3 by done; rewrite P, P6, P0, pack3 by done;
         do 2 f_equal; rewrite V6, V0; Z.div_mod_to_equations; lia
       | eapply length_table_functional; [apply codepoint_length_in_table|];
         by apply Row3 ].
  destruct (Z.leb_spec 0x10000 v), (Z.ltb_spec v 0x110000);
    cbn [andb]; try lia.
  destruct (lead4_of v) as (_ & L & P & _); [lia|]. cbv zeta in L, P.
  eexists _, [_; _; _]. split; [done|]. split; [done|].
  split; [apply lead_not_continuation; auto|]. split; [by repeat constructor|].
  intros rest l Hl. cbn [app]. split.
  - rewrite decode_lead4 by done. rewrite P, P12, P6, P0, pack4 by done.
    do 2 f_equal. rewrite V12, V6, V0. Z.div_mod_to_equations. lia.
  - eapply length_table_functional; [apply codepoint_length_in_table|].
    by apply Row4.
Qed.

(** X1: [decode_codepoint] on a buffer that starts with the encoding of a
    valid scalar [v] returns [v] and the length of that encoding, whatever
    bytes follow and however many bytes [l >= length] are announced. *)
Theorem decode_codepoint_of_encoding (v : Z) (rest : list Z) (l : nat) :
  valid_scalar v -> (length (encode_codepoint v) <= l)%nat ->
  decode_codepoint (encode_codepoint v ++ rest) l =
    Some (length (encode_codepoint v), v).
Proof.
  intros Hv Hl.
  destruct (encode_valid_shape v Hv) as (b0 & tl & E & Hlen & _ & _ & H).
  rewrite E in *. cbn [length app] in *. rewrite Hlen in *.
  by apply H.
Qed.

Lemma decode_codepoint_of_encoding_witness :
  decode_codepoint (encode_codepoint 0x20AC ++ [0x41; 0x42]) 5 =
    Some (length (encode_codepoint 0x20AC), 0x20AC).
Proof.
  apply (decode_codepoint_of_encoding 0x20AC [0x41; 0x42] 5).
  - split; lia.
  - cbn. lia.
Defined.

(** X2: [codepoint_length] agrees with [encode_codepoint]: at the head of
    a buffer that starts with the encoding of a valid scalar it returns the
    number of bytes of that encoding, which is the number the boundary
    table predicts. *)
Theorem codepoint_length_of_encoding (v : Z) (rest : list Z) (l : nat) :
  valid_scalar v -> (length (encode_codepoint v) <= l)%nat ->
  codepoint_length (encode_codepoint v ++ rest) l = length (encode_codepoint v) /\
  length (encode_codepoint v) = encoded_length v.
Proof.
  intros Hv Hl.
  destruct (encode_valid_shape v Hv) as (b0 & tl & E & Hlen & _ & _ & H).
  rewrite E in *. cbn [length app] in *. rewrite Hlen in *.
  split; [by apply H|done].
Qed.

Lemma codepoint_length_of_encoding_witness :
  codepoint_length (encode_codepoint 0x1F600 ++ [0x41]) 5 =
    length (encode_codepoint 0x1F600) /\
  length (encode_codepoint 0x1F600) = encoded_length 0x1F600.
Proof.
  apply (codepoint_length_of_encoding 0x1F600 [0x41] 5).
  - split; lia.
  - cbn. lia.
Defined.

(** X3: [encode_codepoint] is injective on valid scalars: two different
    scalars never get the same bytes. *)
Theorem encode_codepoint_injective (v1 v2 : Z) :
  valid_scalar v1 -> valid_scalar v2 -> v1 <> v2 ->
  encode_codepoint v1 <> encode_codepoint v2.
Proof.
  intros H1 H2 Hne E.
  destruct (encode_valid_shape v1 H1) as (b & tl & E1 & L1 & _ & _ & D1).
  destruct (encode_valid_shape v2 H2) as (b' & tl' & E2 & L2 & _ & _ & D2).
  rewrite E1, E2 in E. injection E as -> ->.
  assert (encoded_length v1 = encoded_length v2) as EL by congruence.
  destruct (D1 [] (encoded_length v1) ltac:(lia)) as [Hd1 _].
  destruct (D2 [] (encoded_length v1) ltac:(lia)) as [Hd2 _].
  rewrite Hd1 in Hd2. apply Hne. by injection Hd2.
Qed.

Lemma encode_codepoint_injective_witness :
  encode_codepoint 0xE9 <> encode_codepoint 0x20AC.
Proof.
  apply (encode_codepoint_injective 0xE9 0x20AC); [split; lia|split; lia|lia].
Defined.

Lemma decode_codepoint_classifies (s8 : list Z) (l : nat) :
  match decode_codepoint s8 l with
  | Some (bytes, _) =>
      codepoint_length s8 l = bytes /\ (1 <= bytes <= 4)%nat /\ (bytes <= l)%nat
  | None => codepoint_length s8 l = 0%nat
  end.
Proof.
  unfold decode_codepoint, codepoint_length.
  destruct (Nat.eqb_spec l 0) as [->|Hl]; cbn [negb]; [done|].
  destruct (Z.land (byte_at s8 0) 0x80 =? 0); [repeat split; lia|].
  destruct (Z.land (byte_at s8 0) 0xE0 =? 0xC0) eqn:E2.
  { destruct (Nat.leb_spec 2 l); cbn [andb]; [repeat split; lia|].
    destruct (Z.eqb_spec (Z.land (byte_at s8 0) 0xF0) 0xE0) as [E3|_].
    { destruct (lead_patterns_exclusive (byte_at s8 0)) as (_ & X & _).
      destruct (X E3) as [_ X']. apply Z.eqb_eq in E2. lia. }
    destruct (Z.eqb_spec (Z.land (byte_at s8 0) 0xF8) 0xF0) as [E4|_]; [|done].
    destruct (lead_patterns_exclusive (byte_at s8 0)) as (_ & _ & X).
    destruct (X E4) as (_ & X' & _). apply Z.eqb_eq in E2. lia. }
  cbn [andb].
  destruct (Z.land (byte_at s8 0) 0xF0 =? 0xE0) eqn:E3.
  { destruct (Nat.leb_spec 3 l); cbn [andb]; [repeat split; lia|].
    destruct (Z.eqb_spec (Z.land (byte_at s8 0) 0xF8) 0xF0) as [E4|_]; [|done].
    destruct (lead_patterns_exclusive (byte_at s8 0)) as (_ & _ & X).
    destruct (X E4) as (_ & _ & X'). apply Z.eqb_eq in E3. lia. }
  cbn [andb].
  destruct (Z.land (byte_at s8 0) 0xF8 =? 0xF0); [|done].
  destruct (Nat.leb_spec 4 l); cbn [andb]; [repeat split; lia|done].
Qed.

(** X4: [decode_codepoint] and [codepoint_length] classify a buffer
    alike.  [decode_codepoint] fails exactly where [codepoint_length] is 0,
    and where it succeeds the number of bytes it reports is
    [codepoint_length], between 1 and 4 and never more than [l]; so the
    overload [decode_codepoint(s8, l, cp)] returns [codepoint_length(s8, l)],
    and leaves [cp] alone when that is 0. *)
Theorem decode_codepoint_bytes_is_codepoint_length (s8 : list Z) (l : nat) :
  match decode_codepoint s8 l with
  | Some (bytes, _) =>
      codepoint_length s8 l = bytes /\ (1 <= bytes <= 4)%nat /\ (bytes <= l)%nat
  | None => codepoint_length s8 l = 0%nat
  end /\
  forall cp,
    fst (decode_codepoint_bytes s8 l cp) = codepoint_length s8 l /\
    (codepoint_length s8 l = 0%nat -> decode_codepoint_bytes s8 l cp = (0%nat, cp)).
Proof.
  pose proof (decode_codepoint_classifies s8 l) as H.
  split; [done|]. intros cp. unfold decode_codepoint_bytes.
  destruct (decode_codepoint s8 l) as [[bytes cp']|].
  - destruct H as (-> & Hb & _). split; [done|]. lia.
  - by rewrite H.
Qed.

Lemma payload_range (b k m : Z) :
  0 <= k -> m = 2 ^ k - 1 -> 0 <= Z.land b m < 2 ^ k.
Proof.
  intros Hk ->. rewrite land_low_bits by done. apply Z.mod_pos_bound. lia.
Qed.

Lemma ascii_below_128 (b : Z) : is_byte b -> Z.land b 0x80 = 0 -> b < 128.
Proof.
  intros Hb H.
  pose proof (forall_below (fun b => negb (Z.land b 0x80 =? 0) || (b <? 128))
                256 eq_refl b Hb) as Hall.
  cbv beta in Hall. rewrite H in Hall. cbn in Hall. lia.
Qed.

(** X5: what [decode_codepoint] returns is bounded by the number of
    bytes it reports: below [0x80] for one byte (of a buffer of bytes),
    below [0x800] for two, below [0x10000] for three and below [0x200000]
    for four.  It never returns a value of 2^21 or more. *)
Theorem decode_codepoint_bound (s8 : list Z) (l bytes : nat) (cp : Z) :
  is_byte (byte_at s8 0) ->
  decode_codepoint s8 l = Some (bytes, cp) ->
  0 <= cp < 0x200000 /\
  (bytes = 1%nat -> cp < 0x80) /\ (bytes = 2%nat -> cp < 0x800) /\
  (bytes = 3%nat -> cp < 0x10000).
Proof.
  intros Hb. unfold decode_codepoint.
  pose proof (payload_range (byte_at s8 0) 5 0x1F ltac:(lia) eq_refl) as R5.
  pose proof (payload_range (byte_at s8 0) 4 0x0F ltac:(lia) eq_refl) as R4.
  pose proof (payload_range (byte_at s8 0) 3 0x07 ltac:(lia) eq_refl) as R3.
  pose proof (sextet_of_byte (byte_at s8 1)) as S1.
  pose proof (sextet_of_byte (byte_at s8 2)) as S2.
  pose proof (sextet_of_byte (byte_at s8 3)) as S3.
  destruct (negb (l =? 0)%nat); [|done].
  destruct (Z.eqb_spec (Z.land (byte_at s8 0) 0x80) 0) as [E1|_].
  { intros [= <- <-]. pose proof (ascii_below_128 _ Hb E1).
    unfold is_byte in Hb. repeat split; lia. }
  destruct (Z.land (byte_at s8 0) 0xE0 =? 0xC0).
  { destruct (2 <=? l)%nat; [|done]. intros [= <- <-].
    rewrite pack2 by done. repeat split; lia. }
  destruct (Z.land (byte_at s8 0) 0xF0 =? 0xE0).
  { destruct (3 <=? l)%nat; [|done]. intros [= <- <-].
    rewrite pack3 by done. repeat split; lia. }
  destruct (Z.land (byte_at s8 0) 0xF8 =? 0xF0); [|done].
  destruct (4 <=? l)%nat; [|done]. intros [= <- <-].
  rewrite pack4 by done. repeat split; lia.
Qed.

Lemma decode_codepoint_bound_witness :
  0 <= 0x10FFFF < 0x200000 /\
  (4%nat = 1%nat -> 0x10FFFF < 0x80) /\ (4%nat = 2%nat -> 0x10FFFF < 0x800) /\
  (4%nat = 3%nat -> 0x10FFFF < 0x10000).
Proof.
  apply (decode_codepoint_bound [0xF4; 0x8F; 0xBF; 0xBF] 4 4 0x10FFFF).
  - unfold is_byte, byte_at. cbn. lia.
  - reflexivity.
Defined.

(** X6: [decode_codepoint] reads only the low six bits of the bytes
    behind the lead byte: it does not check that they are continuation
    bytes.  Two buffers with the same first byte whose next three bytes
    agree on their low six bits decode alike. *)
Theorem decode_codepoint_ignores_continuation_tag (s8 s8' : list Z) (l : nat) :
  byte_at s8 0 = byte_at s8' 0 ->
  (forall i, (1 <= i <= 3)%nat ->
     Z.land (byte_at s8 i) 0x3F = Z.land (byte_at s8' i) 0x3F) ->
  decode_codepoint s8 l = decode_codepoint s8' l.
Proof.
  intros H0 H. unfold decode_codepoint.
  by rewrite H0, (H 1%nat), (H 2%nat), (H 3%nat) by lia.
Qed.

Lemma decode_codepoint_ignores_continuation_tag_witness :
  decode_codepoint [0xC3; 0xA9] 2 = decode_codepoint [0xC3; 0x29] 2.
Proof.
  apply (decode_codepoint_ignores_continuation_tag [0xC3; 0xA9] [0xC3; 0x29] 2).
  - reflexivity.
  - intros i Hi.
    destruct i as [|[|[|[|i]]]]; try lia; reflexivity.
Defined.

(** * UTF-8 text: [codepoint_count] and [decode] *)

Lemma utf8_cons (v : Z) (vs : list Z) :
  utf8 (v :: vs) = encode_codepoint v ++ utf8 vs.
Proof. reflexivity. Qed.

Lemma utf8_length_ge (vs : list Z) :
  Forall valid_scalar vs -> (length vs <= length (utf8 vs))%nat.
Proof.
  induction 1 as [|v vs Hv _ IH]; [done|].
  rewrite utf8_cons, length_app.
  destruct (encode_valid_shape v Hv) as (b0 & tl & -> & _). cbn [length]. lia.
Qed.

Lemma codepoint_count_body_eq (s8 : list Z) (l i : nat) (count : Z) :
  codepoint_count_body s8 l (i, count) =
    Ok ((i + codepoint_length (drop i s8) (l - i))%nat, (count + 1) mod 2 ^ 64).
Proof. reflexivity. Qed.

Lemma codepoint_count_utf8_loop (vs : list Z) :
  Forall valid_scalar vs ->
  forall pre fuel count,
    (length (utf8 vs) < fuel)%nat ->
    0 <= count -> count + Z.of_nat (length vs) < 2 ^ 64 ->
    while_ fuel (codepoint_count_cond (length (pre ++ utf8 vs)))
      (codepoint_count_body (pre ++ utf8 vs) (length (pre ++ utf8 vs)))
      (length pre, count)
    = Ok (length (pre ++ utf8 vs), count + Z.of_nat (length vs)).
Proof.
  induction 1 as [|v vs Hv _ IH]; intros pre fuel count Hf Hc Hb.
  - destruct fuel as [|fuel]; [lia|]. rewrite while_step.
    unfold codepoint_count_cond. cbn [fst utf8 map concat length].
    rewrite app_nil_r, Nat.ltb_irrefl. do 2 f_equal. lia.
  - destruct fuel as [|fuel]; [cbn in Hf; lia|]. rewrite while_step.
    destruct (encode_valid_shape v Hv) as (b0 & tl & E & Hlen & _ & _ & H).
    rewrite utf8_cons, length_app in Hf.
    unfold codepoint_count_cond at 1. cbn [fst].
    rewrite utf8_cons, codepoint_count_body_eq, drop_app_length.
    rewrite !length_app, E. cbn [length].
    destruct (Nat.ltb_spec (length pre)
                (length pre + (S (length tl) + length (utf8 vs)))); [|lia].
    replace (length pre + (S (length tl) + length (utf8 vs)) - length pre)%nat
      with (S (length tl) + length (utf8 vs))%nat by lia.
    cbn [app].
    destruct (H (utf8 vs) (S (length tl) + length (utf8 vs))%nat ltac:(lia))
      as [_ ->].
    rewrite bind_Ok, Z.mod_small by (cbn [length] in Hb; lia).
    specialize (IH (pre ++ b0 :: tl) fuel (count + 1)).
    rewrite <- app_assoc, !length_app in IH. cbn [app length] in IH.
    rewrite <- Hlen. rewrite IH; [|rewrite E in Hf; cbn [length] in Hf; lia|lia
                                  |cbn [length] in Hb; lia].
    do 2 f_equal. cbn [length]. lia.
Qed.

(** X7: on the UTF-8 text of a sequence of valid scalars
    [codepoint_count] returns, and returns the number of scalars. *)
Theorem codepoint_count_of_utf8 (vs : list Z) :
  Forall valid_scalar vs -> Z.of_nat (length (utf8 vs)) < 2 ^ 64 ->
  codepoint_count (S (length (utf8 vs))) (utf8 vs) (length (utf8 vs)) =
    Ok (Z.of_nat (length vs)).
Proof.
  intros Hvs Hlen. pose proof (utf8_length_ge vs Hvs) as Hge.
  unfold codepoint_count.
  rewrite (codepoint_count_utf8_loop vs Hvs [] _ 0) by lia.
  by rewrite bind_Ok.
Qed.

Lemma codepoint_count_of_utf8_witness :
  codepoint_count (S (length (utf8 [0x41; 0xE9; 0x20AC; 0x1F600])))
    (utf8 [0x41; 0xE9; 0x20AC; 0x1F600])
    (length (utf8 [0x41; 0xE9; 0x20AC; 0x1F600])) = Ok 4.
Proof.
  apply (codepoint_count_of_utf8 [0x41; 0xE9; 0x20AC; 0x1F600]).
  - repeat constructor; lia.
  - cbn. lia.
Defined.

Lemma decode_scan_run (s : list Z) (fuel : nat) :
  forall i,
    (i <= length s)%nat -> (length s - i < fuel)%nat ->
    while_ fuel (decode_scan_cond s (length s)) decode_scan_body i =
      Ok (i + length (continuation_run (drop i s)))%nat.
Proof.
  induction fuel as [|fuel IH]; intros i Hi Hf; [lia|].
  rewrite while_step. unfold decode_scan_cond at 1.
  destruct (Nat.ltb_spec i (length s)) as [Hlt|Hge]; cbn [andb].
  - rewrite (drop_byte_at s i Hlt). cbn [continuation_run].
    destruct (Z.land (byte_at s i) 0xc0 =? 0x80).
    + change (decode_scan_body i) with (Ok (S i) : result nat).
      rewrite bind_Ok, IH by lia.
      cbn [length]. f_equal. lia.
    + cbn [length]. by rewrite Nat.add_0_r.
  - rewrite drop_ge by lia. cbn [continuation_run length].
    by rewrite Nat.add_0_r.
Qed.

(** One iteration of [decode]: the unit is the byte at [i] and the
    continuation bytes behind it. *)
Lemma decode_body_eq (s : list Z) (i : nat) (out : list Z) :
  (i < length s)%nat ->
  decode_body s (length s) (i, out) =
    Ok ((S i + length (continuation_run (drop (S i) s)))%nat,
        out ++ [decode_codepoint_value (drop i s)
                  (S (length (continuation_run (drop (S i) s))))]).
Proof.
  intros Hi. unfold decode_body.
  rewrite decode_scan_run by lia. rewrite bind_Ok.
  set (k := length (continuation_run (drop (S i) s))).
  by replace (S i + k - i)%nat with (S k) by lia.
Qed.

Lemma continuation_run_app (tl rest : list Z) :
  Forall continuation tl ->
  continuation_run (tl ++ rest) = tl ++ continuation_run rest.
Proof.
  induction 1 as [|b tl Hb _ IH]; [done|]. cbn [app continuation_run].
  unfold continuation in Hb. by rewrite Hb, Z.eqb_refl, IH.
Qed.

Lemma continuation_run_stop (b : Z) (t : list Z) :
  ~ continuation b -> continuation_run (b :: t) = [].
Proof.
  intros Hb. cbn [continuation_run].
  by destruct (Z.eqb_spec (Z.land b 0xC0) 0x80).
Qed.

Lemma continuation_run_utf8 (vs : list Z) :
  Forall valid_scalar vs -> continuation_run (utf8 vs) = [].
Proof.
  destruct 1 as [|v vs Hv _]; [done|]. rewrite utf8_cons.
  destruct (encode_valid_shape v Hv) as (b0 & tl & -> & _ & Hb0 & _).
  by apply continuation_run_stop.
Qed.

Lemma decode_utf8_loop (vs : list Z) :
  Forall valid_scalar vs ->
  forall s pre fuel out,
    s = pre ++ utf8 vs -> (length (utf8 vs) < fuel)%nat ->
    while_ fuel (decode_cond (length s)) (decode_body s (length s))
      (length pre, out)
    = Ok (length s, out ++ vs).
Proof.
  induction 1 as [|v vs Hv Hvs IH]; intros s pre fuel out Hs Hf.
  - destruct fuel as [|fuel]; [lia|]. rewrite while_step.
    cbn [utf8 map concat] in Hs. rewrite app_nil_r in Hs. subst s.
    unfold decode_cond. cbn [fst].
    by rewrite app_nil_r, Nat.ltb_irrefl.
  - destruct fuel as [|fuel]; [cbn in Hf; lia|]. rewrite while_step.
    destruct (encode_valid_shape v Hv) as (b0 & tl & E & Hlen & _ & Htl & H).
    rewrite utf8_cons, E in Hs, Hf. cbn [app] in Hs.
    rewrite length_app in Hf. cbn [length] in Hf.
    assert (length s = length pre + S (length tl) + length (utf8 vs))%nat as Hl.
    { subst s. rewrite length_app. cbn [length]. rewrite length_app. lia. }
    assert (drop (length pre) s = b0 :: tl ++ utf8 vs) as Hd0
      by (subst s; apply drop_app_length).
    assert (drop (S (length pre)) s = tl ++ utf8 vs) as Hd1.
    { replace (S (length pre)) with (length pre + 1)%nat by lia.
      by rewrite <- drop_drop, Hd0. }
    unfold decode_cond at 1. cbn [fst].
    destruct (Nat.ltb_spec (length pre) (length s)); [|lia].
    rewrite decode_body_eq by done.
    rewrite Hd0, Hd1, continuation_run_app, continuation_run_utf8, app_nil_r
      by done.
    unfold decode_codepoint_value, decode_codepoint_bytes.
    destruct (H (utf8 vs) (S (length tl)) ltac:(lia)) as [-> _].
    cbn [snd]. rewrite bind_Ok.
    replace (S (length pre) + length tl)%nat
      with (length (pre ++ b0 :: tl)) by (rewrite length_app; cbn [length]; lia).
    rewrite (IH s (pre ++ b0 :: tl) fuel (out ++ [v])); [|by subst s; rewrite <- app_assoc|lia].
    by rewrite <- app_assoc.
Qed.

(** X8: [decode] inverts encoding on whole texts: on the UTF-8 text of a
    sequence of valid scalars it returns that sequence. *)
Theorem decode_of_utf8 (vs : list Z) :
  Forall valid_scalar vs ->
  decode (utf8 vs) (length (utf8 vs)) = Ok vs.
Proof.
  intros Hvs. unfold decode.
  rewrite (decode_utf8_loop vs Hvs (utf8 vs) [] _ []) by (done || lia).
  by rewrite bind_Ok.
Qed.

Lemma decode_of_utf8_witness :
  decode (utf8 [0x41; 0xE9; 0x20AC; 0x1F600])
    (length (utf8 [0x41; 0xE9; 0x20AC; 0x1F600])) =
  Ok [0x41; 0xE9; 0x20AC; 0x1F600].
Proof.
  apply (decode_of_utf8 [0x41; 0xE9; 0x20AC; 0x1F600]).
  repeat constructor; lia.
Defined.

Lemma continuation_run_length (t : list Z) :
  (length (continuation_run t) <= length t)%nat.
Proof.
  induction t as [|b t IH]; cbn [continuation_run length]; [lia|].
  destruct (Z.land b 0xC0 =? 0x80); cbn [length]; lia.
Qed.

(** Behind the continuation bytes a text starts with, every remaining
    non-continuation byte is still there. *)
Lemma starts_after_run (t : list Z) :
  starts t =
    match drop (length (continuation_run t)) t with
    | [] => 0%nat
    | _ :: t' => S (starts t')
    end.
Proof.
  induction t as [|b t IH]; [done|]. cbn [continuation_run starts].
  destruct (Z.land b 0xC0 =? 0x80) eqn:E; cbn [length drop]; [apply IH|done].
Qed.

Lemma decode_loop_length (s : list Z) (fuel : nat) :
  forall i out,
    (i <= length s)%nat -> (length s - i < fuel)%nat ->
    exists outs,
      while_ fuel (decode_cond (length s)) (decode_body s (length s)) (i, out)
      = Ok (length s, out ++ outs) /\
      length outs = match drop i s with
                    | [] => 0%nat
                    | _ :: t => S (starts t)
                    end.
Proof.
  induction fuel as [|fuel IH]; intros i out Hi Hf; [lia|].
  rewrite while_step. unfold decode_cond at 1. cbn [fst].
  destruct (Nat.ltb_spec i (length s)) as [Hlt|Hge].
  - rewrite decode_body_eq, bind_Ok by done.
    set (t := drop (S i) s).
    pose proof (continuation_run_length t) as Hk.
    assert (length t = length s - S i)%nat as Ht
      by (unfold t; apply length_drop).
    destruct (IH (S i + length (continuation_run t))%nat
                (out ++ [decode_codepoint_value (drop i s)
                           (S (length (continuation_run t)))])
                ltac:(lia) ltac:(lia)) as (outs & -> & Hlen).
    eexists (_ :: outs). split; [by rewrite <- app_assoc|].
    rewrite (drop_byte_at s i Hlt). fold t.
    cbn [length]. rewrite Hlen, (starts_after_run t). unfold t.
    by rewrite drop_drop.
  - exists []. rewrite app_nil_r. split; [do 2 f_equal; lia|].
    by rewrite drop_ge by lia.
Qed.

(** X9: [decode] returns on every buffer, malformed or not, and gives one
    code point for the first byte and one for every later byte that is no
    continuation byte ([10xxxxxx]); in particular nothing for the empty
    buffer and never more code points than bytes. *)
Theorem decode_one_per_start (s : list Z) :
  exists out,
    decode s (length s) = Ok out /\
    length out = match s with
                 | [] => 0%nat
                 | _ :: t => S (starts t)
                 end /\
    (length out <= length s)%nat.
Proof.
  destruct (decode_loop_length s (S (length s)) 0 [] ltac:(lia) ltac:(lia))
    as (outs & Hw & Hlen).
  exists outs. unfold decode. rewrite Hw, bind_Ok. rewrite drop_0 in Hlen.
  split; [done|]. split; [done|].
  rewrite Hlen. destruct s as [|b t]; [done|]. cbn [length].
  assert (starts t <= length t)%nat; [|lia].
  clear. induction t as [|b t IH]; cbn [starts length]; [lia|].
  destruct (_ =? _); lia.
Qed.

(** * [escape_characters] *)

Lemma escape_characters_body_eq (s acc : list Z) (i : nat) :
  escape_characters_body s acc i = acc ++ escape_char (byte_at s i).
Proof.
  unfold escape_characters_body, escape_char.
  repeat match goal with
         | |- context [byte_at s i =? ?b] => destruct (byte_at s i =? b)
         end; reflexivity.
Qed.

Lemma byte_at_app_length (pre : list Z) (c : Z) (t : list Z) :
  byte_at (pre ++ c :: t) (length pre) = c.
Proof. unfold byte_at. by rewrite app_nth2, Nat.sub_diag by lia. Qed.

Lemma escape_characters_fold (t : list Z) :
  forall pre acc,
    fold_left (escape_characters_body (pre ++ t)) (seq (length pre) (length t)) acc
    = acc ++ flat_map escape_char t.
Proof.
  induction t as [|c t IH]; intros pre acc.
  - cbn. by rewrite app_nil_r.
  - cbn [length seq fold_left flat_map].
    rewrite escape_characters_body_eq, byte_at_app_length.
    specialize (IH (pre ++ [c]) (acc ++ escape_char c)).
    rewrite <- app_assoc, length_app in IH. cbn [app length] in IH.
    replace (length pre + 1)%nat with (S (length pre)) in IH by lia.
    by rewrite IH, <- app_assoc.
Qed.

(** The loop writes, for each character in turn, its replacement. *)
Lemma escape_characters_flat_map (s : list Z) :
  escape_characters s (length s) = flat_map escape_char s.
Proof. apply (escape_characters_fold s [] []). Qed.

Lemma escape_char_cases (c : Z) :
  (is_control c /\ exists e, escape_char c = [chr "\"; e] /\
                             simple_escape e = Some c) \/
  (~ is_control c /\ escape_char c = [c]).
Proof.
  unfold escape_char, is_control.
  destruct (Z.eqb_spec c (chr "012")) as [->|N1];
    [left; split; [by vm_compute|by eexists]|].
  destruct (Z.eqb_spec c (chr "010")) as [->|N2];
    [left; split; [by vm_compute|by eexists]|].
  destruct (Z.eqb_spec c (chr "013")) as [->|N3];
    [left; split; [by vm_compute|by eexists]|].
  destruct (Z.eqb_spec c (chr "009")) as [->|N4];
    [left; split; [by vm_compute|by eexists]|].
  destruct (Z.eqb_spec c (chr "011")) as [->|N5];
    [left; split; [by vm_compute|by eexists]|].
  right. split; [|done].
  change (chr "012") with 12 in N1. change (chr "010") with 10 in N2.
  change (chr "013") with 13 in N3. change (chr "009") with 9 in N4.
  change (chr "011") with 11 in N5. lia.
Qed.

(** X10: the text [escape_characters] returns holds none of the five
    control characters (form feed, line feed, carriage return, tab,
    vertical tab), and is at least as long as the input and at most twice
    as long. *)
Theorem escape_characters_no_control (s : list Z) :
  Forall (fun c => ~ is_control c) (escape_characters s (length s)) /\
  (length s <= length (escape_characters s (length s)) <= 2 * length s)%nat.
Proof.
  rewrite escape_characters_flat_map.
  induction s as [|c s [IH1 IH2]]; [split; [constructor|cbn; lia]|].
  cbn [flat_map length]. rewrite length_app.
  destruct (escape_char_cases c) as [(Hc & e & -> & He)|[Hc ->]].
  - split; [|cbn [length]; lia].
    apply Forall_app. split; [|done].
    constructor; [|constructor; [|constructor]].
    { unfold is_control. change (chr "\") with 92. lia. }
    unfold is_control. intros He'.
    assert (e = 9 \/ e = 10 \/ e = 11 \/ e = 12 \/ e = 13) as Hcase by lia.
    destruct Hcase as [-> | [-> | [-> | [-> | ->]]]]; discriminate He.
  - split; [|cbn [length]; lia].
    apply Forall_app. split; [by repeat constructor|done].
Qed.

Lemma fmap_Ok_inv {A B : Type} (f : A -> B) (m : result A) (b : B) :
  f <$> m = Ok b -> exists a, m = Ok a /\ b = f a.
Proof. destruct m as [a| |]; [|done|done]. intros [= <-]. by exists a. Qed.

(** X11: resolving undoes escaping.  For a text without backslashes,
    [resolve_escape_sequence] applied to what [escape_characters] returns
    gives the text back. *)
Theorem resolve_escape_characters (s : list Z) :
  Forall (fun c => c <> chr "\") s ->
  resolve_escape_sequence (escape_characters s (length s))
    (length (escape_characters s (length s))) = Ok s.
Proof.
  intros Hs. rewrite escape_characters_flat_map. fold (resolve (flat_map escape_char s)).
  induction Hs as [|c s Hc _ IH]; [done|]. cbn [flat_map].
  destruct (escape_char_cases c) as [(_ & e & -> & He)|[_ ->]]; cbn [app].
  - by rewrite (resolve_simple e c _ He), IH.
  - by rewrite resolve_plain, IH.
Qed.

(** * [resolve_escape_sequence]: the size of the result *)

Lemma encode_length_le_4 (x : Z) : (length (encode_codepoint x) <= 4)%nat.
Proof.
  rewrite encode_codepoint_bytes. unfold encode_bytes.
  repeat match goal with
         | |- context [if ?b then _ else _] => destruct b
         end; cbn [length]; lia.
Qed.

Lemma encode_length_ascii (x : Z) :
  x < 128 -> length (encode_codepoint x) = 1%nat.
Proof.
  intros Hx. rewrite encode_codepoint_bytes. unfold encode_bytes.
  by destruct (Z.ltb_spec x 0x80); [|lia].
Qed.

(** The number a one-digit run denotes. *)
Lemma radix_value_1 (digit : Z -> option Z) (radix c v : Z) :
  digit c = Some v -> radix_value digit radix [c] = v.
Proof.
  intros Hv. unfold radix_value. cbn [fold_left]. rewrite Hv.
  cbn [from_option]. change (id v) with v. lia.
Qed.

Lemma radix_value_2 (digit : Z -> option Z) (radix c1 c2 v1 v2 : Z) :
  digit c1 = Some v1 -> digit c2 = Some v2 ->
  radix_value digit radix [c1; c2] = v1 * radix + v2.
Proof.
  intros Hv1 Hv2. unfold radix_value. cbn [fold_left]. rewrite Hv1, Hv2.
  cbn [from_option]. change (id v1) with v1. change (id v2) with v2. lia.
Qed.

(** The encoding of a hex escape is no longer than the escape: [\x] and
    its digits.  One digit gives one byte; the encoding of any value,
    whatever a longer run accumulates to, has at most four. *)
Lemma hex_escape_length (run : list Z) :
  Forall (fun c => is_Some (is_hex c)) run ->
  (length (encode_codepoint (to_char32 (accumulate is_hex 16 run 0)))
   <= 2 + length run)%nat.
Proof.
  intros Hrun. destruct run as [|c1 [|c2 run]].
  - vm_compute. lia.
  - pose proof Hrun as Hrun'. apply Forall_cons_1 in Hrun' as [[v Hv] _].
    pose proof (is_hex_range c1 v Hv).
    pose proof (radix_value_1 is_hex 16 c1 v Hv) as E.
    rewrite hex_value by (done || (rewrite E; change (2 ^ 31) with 2147483648; lia)).
    rewrite E, encode_length_ascii by lia. cbn [length]. lia.
  - apply Nat.le_trans with 4%nat; [apply encode_length_le_4|cbn [length]; lia].
Qed.

(** The encoding of an octal escape is no longer than the backslash and
    its digits. *)
Lemma octal_escape_length (run : list Z) :
  Forall (fun c => is_Some (is_digit c)) run ->
  (length (encode_codepoint (to_char32 (accumulate is_digit 8 run 0)))
   <= 1 + length run)%nat.
Proof.
  intros Hrun. destruct run as [|c1 [|c2 [|c3 run]]].
  - vm_compute. lia.
  - pose proof Hrun as Hrun'. apply Forall_cons_1 in Hrun' as [[v Hv] _].
    pose proof (is_digit_range c1 v Hv).
    pose proof (radix_value_1 is_digit 8 c1 v Hv) as E.
    rewrite octal_value by (done || (rewrite E; change (2 ^ 31) with 2147483648; lia)).
    rewrite E, encode_length_ascii by lia. cbn [length]. lia.
  - pose proof Hrun as Hrun'. apply Forall_cons_1 in Hrun' as [[v1 Hv1] Hrun'].
    apply Forall_cons_1 in Hrun' as [[v2 Hv2] _].
    pose proof (is_digit_range c1 v1 Hv1).
    pose proof (is_digit_range c2 v2 Hv2).
    pose proof (radix_value_2 is_digit 8 c1 c2 v1 v2 Hv1 Hv2) as E.
    rewrite octal_value by (done || (rewrite E; change (2 ^ 31) with 2147483648; lia)).
    rewrite E, encode_length_ascii by lia. cbn [length]. lia.
  - apply Nat.le_trans with 4%nat; [apply encode_length_le_4|cbn [length]; lia].
Qed.

(** X12: the resolved text is never longer than the input, so the
    [r.reserve(n)] of [resolve_escape_sequence] holds the whole result:
    every escape is at least as long as the bytes it stands for. *)
Theorem resolve_never_longer (s r : list Z) :
  resolve_escape_sequence s (length s) = Ok r -> (length r <= length s)%nat.
Proof.
  fold (resolve s). remember (length s) as n eqn:Hn. revert s r Hn.
  induction n as [n IH] using lt_wf_ind. intros s r -> Hr.
  destruct s as [|c t]; [by injection Hr as <-|].
  destruct (Z.eq_dec c (chr "\")) as [->|Hc].
  2: { rewrite resolve_plain in Hr by done.
       apply fmap_Ok_inv in Hr as (r' & Hr' & ->).
       specialize (IH (length t) ltac:(cbn; lia) t r' eq_refl Hr').
       cbn [length]. lia. }
  destruct t as [|c' t']; [done|].
  destruct (simple_escape c') as [e|] eqn:Hs.
  { rewrite (resolve_simple c' e t' Hs) in Hr.
    apply fmap_Ok_inv in Hr as (r' & Hr' & ->).
    specialize (IH (length t') ltac:(cbn; lia) t' r' eq_refl Hr').
    cbn [length]. lia. }
  destruct (hex_intro c') eqn:Hh.
  - rewrite resolve_hex in Hr by done.
    apply fmap_Ok_inv in Hr as (r' & Hr' & ->).
    pose proof (digit_run_length is_hex t').
    pose proof (hex_escape_length _ (digit_run_Forall is_hex t')).
    set (rest := drop (length (digit_run is_hex t')) t') in *.
    assert (length rest = length t' - length (digit_run is_hex t'))%nat as Hrest
      by apply length_drop.
    specialize (IH (length rest) ltac:(cbn [length]; lia) rest r' eq_refl Hr').
    rewrite length_app. cbn [length]. lia.
  - rewrite resolve_octal in Hr by done.
    apply fmap_Ok_inv in Hr as (r' & Hr' & ->).
    pose proof (digit_run_length is_digit (c' :: t')).
    pose proof (octal_escape_length _ (digit_run_Forall is_digit (c' :: t'))).
    set (run := digit_run is_digit (c' :: t')) in *.
    set (rest := drop (length run) (c' :: t')) in *.
    assert (length rest = length (c' :: t') - length run)%nat as Hrest
      by apply length_drop.
    cbn [length] in *.
    specialize (IH (length rest) ltac:(lia) rest r' eq_refl Hr').
    rewrite length_app. lia.
Qed.

(** * [parse_hex_number] and [parse_octal_number] *)

Section NumberLoop.
Context (digit : Z -> option Z) (radix : Z).
Hypothesis radix_pos : 1 <= radix.
Hypothesis digit_nonneg : forall c v, digit c = Some v -> 0 <= v.

Lemma digit_run_stop (s : list Z) :
  match drop (length (digit_run digit s)) s with
  | [] => True
  | c :: _ => digit c = None
  end.
Proof.
  induction s as [|c t IH]; [done|]. cbn [digit_run].
  destruct (digit c) eqn:E; cbn [length drop]; [apply IH|done].
Qed.

(** A number loop started at [i]: it consumes the longest run of digits
    there, and returns the number they denote when that fits an [int]. *)
Lemma parse_number_greedy (s : list Z) (i : nat) :
  (i <= length s)%nat ->
  exists run rest v,
    while_ (S (length s - i)) (parse_number_cond digit s (length s))
      (parse_number_body digit radix s) (0, i) = Ok (v, (i + length run)%nat) /\
    drop i s = run ++ rest /\
    Forall (fun c => is_Some (digit c)) run /\
    match rest with [] => True | c :: _ => digit c = None end /\
    (radix_value digit radix run < 2 ^ 31 -> v = radix_value digit radix run).
Proof.
  intros Hi.
  exists (digit_run digit (drop i s)),
         (drop (length (digit_run digit (drop i s))) (drop i s)),
         (accumulate digit radix (digit_run digit (drop i s)) 0).
  split; [apply parse_number_loop; lia|].
  split; [by rewrite digit_run_drop|].
  split; [apply digit_run_Forall|].
  split; [apply digit_run_stop|].
  intros Hsmall.
  by apply (accumulate_exact digit radix radix_pos digit_nonneg);
    [apply digit_run_Forall| |].
Qed.
End NumberLoop.

(** X13: [parse_hex_number] and [parse_octal_number], started at an index
    [i] of the text, return the index behind the longest run of hex digits
    (of decimal digits, for the octal loop) that starts at [i], and, when
    the number that run denotes in base 16 (base 8) is below 2^31, that
    number.  Nothing is said of the returned number for a longer run: the
    accumulation overflows an [int] there.  The hex digits are [0]-[9],
    [a]-[f] and [A]-[F] with the values 0-9, 10-15 and 10-15, and nothing
    else; the digits of the octal loop are [0]-[9] with the values 0-9. *)
Theorem parse_number_longest_run (s : list Z) (i : nat) :
  (i <= length s)%nat ->
  (exists run rest v,
     parse_hex_number s (length s) i = Ok (v, (i + length run)%nat) /\
     drop i s = run ++ rest /\
     Forall (fun c => is_Some (is_hex c)) run /\
     match rest with [] => True | c :: _ => is_hex c = None end /\
     (radix_value is_hex 16 run < 2 ^ 31 -> v = radix_value is_hex 16 run)) /\
  (exists run rest v,
     parse_octal_number s (length s) i = Ok (v, (i + length run)%nat) /\
     drop i s = run ++ rest /\
     Forall (fun c => is_Some (is_digit c)) run /\
     match rest with [] => True | c :: _ => is_digit c = None end /\
     (radix_value is_digit 8 run < 2 ^ 31 -> v = radix_value is_digit 8 run)) /\
  (forall c v, is_hex c = Some v <->
     chr "0" <= c <= chr "9" /\ v = c - chr "0" \/
     chr "a" <= c <= chr "f" /\ v = c - chr "a" + 10 \/
     chr "A" <= c <= chr "F" /\ v = c - chr "A" + 10) /\
  (forall c v, is_digit c = Some v <->
     chr "0" <= c <= chr "9" /\ v = c - chr "0").
Proof.
  intros Hi. split; [|split; [|split]].
  - apply (parse_number_greedy is_hex 16); [lia| |done].
    intros c v Hv. apply is_hex_range in Hv. lia.
  - apply (parse_number_greedy is_digit 8); [lia| |done].
    intros c v Hv. apply is_digit_range in Hv. lia.
  - apply is_hex_spec.
  - apply is_digit_spec.
Qed.

(** * Trie: the records, and [match] on a part of a text *)

(** X14: the map the constructor builds.  A key is present exactly when it
    is a non-empty prefix of a pattern; its [match] flag says that the key
    is a pattern, its [done] flag that no pattern extends it. *)
Theorem Trie_records (P : list (list Z)) (k : list Z) :
  (dic_ (Trie_of P) !! k = None <->
     k = [] \/ forall p, p ∈ P -> ~ k `prefix_of` p) /\
  (forall info, dic_ (Trie_of P) !! k = Some info ->
     (match_ info = true <-> k ∈ P) /\
     (done info = true <-> forall p, p ∈ P -> k `prefix_of` p -> p = k)).
Proof.
  rewrite Trie_of_lookup. unfold trie_spec.
  destruct (decide (k = [])) as [->|Hne].
  { rewrite (bool_decide_eq_false_2 ([] <> [])) by congruence. cbn [andb].
    split; [by split; [left|]|done]. }
  rewrite (bool_decide_eq_true_2 (k <> [])) by done. cbn [andb].
  destruct (has_prefix P k) eqn:HP.
  - split.
    + split; [done|]. intros [?|Hno]; [done|].
      apply has_prefix_true in HP as (p & Hin & Hp). by destruct (Hno p Hin).
    + intros info [= <-]. cbn [match_ done].
      split; [apply is_pattern_true|apply dead_end_true].
  - split; [|done]. split; [|done]. intros _. right. intros p Hin Hp.
    assert (has_prefix P k = true) as HP'; [|congruence].
    apply has_prefix_true. by exists p.
Qed.

Lemma while_ext {S : Type} (cond : S -> bool) (body1 body2 : S -> result S) :
  (forall s, cond s = true -> body1 s = body2 s) ->
  forall fuel s, while_ fuel cond body1 s = while_ fuel cond body2 s.
Proof.
  intros Hb. induction fuel as [|fuel IH]; intros s; [done|].
  rewrite !while_step. destruct (cond s) eqn:Hc; [|done].
  rewrite (Hb s Hc). destruct (body2 s); cbn; [apply IH|done|done].
Qed.

(** [match] looks at the first [text_len] bytes only. *)
Lemma Trie_match_take (t : Trie) (text : list Z) (text_len : nat) :
  Trie_match t text text_len = Trie_match t (take text_len text) text_len.
Proof.
  unfold Trie_match. f_equal. apply while_ext.
  intros [[ml d] len] Hc. unfold match_cond in Hc.
  apply andb_prop in Hc as [_ Hle]. apply Nat.leb_le in Hle.
  rewrite !match_body_eq. by rewrite take_take, Nat.min_l by done.
Qed.

(** X15: [match (text, text_len)] with [text_len] within the text returns
    the length of the longest pattern that is a prefix of the first
    [text_len] bytes (0 if there is none): it never reports more than
    [text_len], and bytes from [text_len] on do not matter. *)
Theorem Trie_match_within_text_len (P : list (list Z)) (text : list Z)
    (text_len : nat) :
  (text_len <= length text)%nat ->
  exists r,
    Trie_match (Trie_of P) text text_len = Ok r /\
    (r <= text_len)%nat /\
    (forall p, p ∈ P -> p `prefix_of` take text_len text -> (length p <= r)%nat) /\
    ((exists p, p ∈ P /\ p `prefix_of` take text_len text /\ length p = r) \/
     (r = 0%nat /\ forall p, p ∈ P -> ~ p `prefix_of` take text_len text)).
Proof.
  intros Hlen.
  destruct (Trie_match_returns (Trie_of P) text text_len) as [r Hr].
  exists r. split; [done|].
  rewrite Trie_match_take in Hr.
  assert (length (take text_len text) = text_len) as Hl
    by (rewrite length_take; lia).
  rewrite <- Hl in Hr at 2.
  destruct (Trie_match_longest P (take text_len text) r Hr) as [Hmax Hwit].
  split; [|done].
  destruct Hwit as [(p & _ & Hp & <-)|[-> _]]; [|lia].
  apply prefix_length in Hp. lia.
Qed.

Lemma Trie_match_within_text_len_witness :
  exists r,
    Trie_match (Trie_of [str "if"; str "in"; str "int"]) (str "integer") 2 = Ok r /\
    (r <= 2)%nat /\
    (forall p, p ∈ [str "if"; str "in"; str "int"] ->
       p `prefix_of` take 2 (str "integer") -> (length p <= r)%nat) /\
    ((exists p, p ∈ [str "if"; str "in"; str "int"] /\
                p `prefix_of` take 2 (str "integer") /\ length p = r) \/
     (r = 0%nat /\ forall p, p ∈ [str "if"; str "in"; str "int"] ->
                     ~ p `prefix_of` take 2 (str "integer"))).
Proof.
  apply (Trie_match_within_text_len
           [str "if"; str "in"; str "int"] (str "integer") 2).
  cbn. lia.
Defined.

(** * [resolve_escape_sequence]: plain text and hexadecimal escapes *)

(** X16: bytes that are no backslash are copied as they are: text without
    a backslash in front of any text resolves to itself followed by what
    the rest resolves to, and a text without any backslash resolves to
    itself. *)
Theorem resolve_copies_plain_text (plain rest : list Z) :
  Forall (fun c => c <> chr "\") plain ->
  resolve_escape_sequence (plain ++ rest) (length (plain ++ rest)) =
    (plain ++.) <$> resolve_escape_sequence rest (length rest) /\
  resolve_escape_sequence plain (length plain) = Ok plain.
Proof.
  intros Hplain. fold (resolve (plain ++ rest)) (resolve rest) (resolve plain).
  split; [by apply resolve_copy|].
  rewrite <- (app_nil_r plain) at 1.
  by rewrite resolve_copy, resolve_nil, fmap_Ok, app_nil_r.
Qed.

(** X17: a [\x] or [\u] escape stands for the UTF-8 encoding of the number
    its hex digits denote, all of them, when that number is below 2^31
    (so that accumulating it in an [int] does not overflow): the
    iteration that meets the escape (at any index) appends that encoding
    and goes on behind the digits, and so does a text in which the escape
    follows text without backslashes.  When the number is a valid scalar,
    the bytes appended decode back to it.  The hex digits are [0]-[9],
    [a]-[f] and [A]-[F], with the values 0-9, 10-15 and 10-15. *)
Theorem hex_escape_encodes_value (plain digits rest : list Z) (c : Z) :
  Forall (fun c => c <> chr "\") plain ->
  hex_intro c = true ->
  Forall (fun c => is_Some (is_hex c)) digits ->
  digit_run is_hex rest = [] ->
  radix_value is_hex 16 digits < 2 ^ 31 ->
  let v := radix_value is_hex 16 digits in
  (forall s i r, drop i s = chr "\" :: c :: digits ++ rest ->
     resolve_body s (length s) (i, r) =
       Ok ((i + (2 + length digits))%nat, r ++ encode_codepoint v)) /\
  resolve (plain ++ chr "\" :: c :: digits ++ rest) =
    (fun r => plain ++ encode_codepoint v ++ r) <$> resolve rest /\
  (valid_scalar v ->
     decode_codepoint (encode_codepoint v) (length (encode_codepoint v)) =
     Some (length (encode_codepoint v), v)) /\
  (forall d x, is_hex d = Some x <->
     chr "0" <= d <= chr "9" /\ x = d - chr "0" \/
     chr "a" <= d <= chr "f" /\ x = d - chr "a" + 10 \/
     chr "A" <= d <= chr "F" /\ x = d - chr "A" + 10).
Proof.
  intros Hplain Hh Hdigits Hrest Hsmall v. split; [|split; [|split]].
  - intros s i r Hdrop. by apply (resolve_body_hex_escape s i r digits rest c).
  - by apply resolve_hex_escape.
  - intros Hv.
    destruct (encode_valid_shape v Hv) as (b0 & tl & E & Hlen & _ & _ & H).
    rewrite E. cbn [length]. rewrite Hlen.
    destruct (H [] (encoded_length v) ltac:(lia)) as [Hd _].
    by rewrite app_nil_r in Hd.
  - apply is_hex_spec.
Qed.

(** * [codepoint_count]: what it returns when it returns *)

Lemma codepoint_length_le (s8 : list Z) (l : nat) :
  (codepoint_length s8 l <= l)%nat.
Proof.
  pose proof (decode_codepoint_classifies s8 l) as H.
  destruct (decode_codepoint s8 l) as [[bytes cp]|]; lia.
Qed.

Lemma codepoint_count_loop_bound (s8 : list Z) (l fuel : nat) :
  forall i count i' count',
    (i <= l)%nat -> 0 <= count ->
    while_ fuel (codepoint_count_cond l) (codepoint_count_body s8 l) (i, count)
    = Ok (i', count') ->
    i' = l /\ 0 <= count' <= count + Z.of_nat (l - i).
Proof.
  induction fuel as [|fuel IH]; intros i count i' count' Hi Hc Hw; [done|].
  rewrite while_step in Hw. unfold codepoint_count_cond at 1 in Hw.
  cbn [fst] in Hw.
  destruct (Nat.ltb_spec i l) as [Hlt|Hge].
  - rewrite codepoint_count_body_eq, bind_Ok in Hw.
    pose proof (codepoint_length_le (drop i s8) (l - i)) as Hle.
    destruct (Nat.eq_dec (codepoint_length (drop i s8) (l - i)) 0%nat)
      as [Hz|Hnz].
    { rewrite Hz, Nat.add_0_r in Hw.
      by rewrite (codepoint_count_stuck s8 l i Hlt Hz) in Hw. }
    pose proof (Z.mod_pos_bound (count + 1) (2 ^ 64) ltac:(lia)) as Hm.
    assert ((count + 1) mod 2 ^ 64 <= count + 1) as Hm'
      by (apply Z.mod_le; lia).
    apply IH in Hw as [-> Hb]; [|lia|lia]. split; lia.
  - injection Hw as <- <-. split; lia.
Qed.

(** X18: when [codepoint_count] returns, it has scanned exactly [l] bytes
    and its count is at most [l]: it never reports more code points than
    bytes. *)
Theorem codepoint_count_at_most_bytes (fuel : nat) (s8 : list Z) (l : nat)
    (count : Z) :
  codepoint_count fuel s8 l = Ok count -> 0 <= count <= Z.of_nat l.
Proof.
  unfold codepoint_count.
  destruct (while_ _ _ _ _) as [[i' count']| |] eqn:Hw; [|done|done].
  rewrite bind_Ok. intros [= <-]. cbn [snd].
  apply codepoint_count_loop_bound in Hw as [_ Hb]; [|lia|lia].
  rewrite Nat.sub_0_r in Hb. lia.
Qed.

Lemma codepoint_count_at_most_bytes_witness : 0 <= 2 <= Z.of_nat 4.
Proof.
  apply (codepoint_count_at_most_bytes 5 (utf8 [0x41; 0x20AC]) 4 2).
  reflexivity.
Defined.

End Peg.

(** * The properties of the resolver on concrete texts

    The properties of [resolve_escape_sequence] and its number loops hold
    whatever an overflowing [int] gives.  Here they are applied to
    concrete texts, with the wrap-around of two's-complement hardware for
    the overflow (none of the texts overflows). *)

Lemma resolve_throws_iff_unescaped_backslash_at_end_witness :
  resolve wrap_around (chr "\" :: chr "x" :: str "g")
    = (0 ::.) <$> resolve wrap_around (str "g") /\
  resolve wrap_around (chr "\" :: chr "a" :: str "b")
    = (0 ::.) <$> resolve wrap_around (chr "a" :: str "b").
Proof.
  split.
  - apply (proj1 (proj2 (proj2
             (resolve_throws_iff_unescaped_backslash_at_end wrap_around)))
             (chr "x") (str "g")); reflexivity.
  - apply (proj2 (proj2 (proj2
             (resolve_throws_iff_unescaped_backslash_at_end wrap_around)))
             (chr "a") (str "b")); reflexivity.
Defined.

Lemma octal_escape_accepts_decimal_digits_witness :
  resolve wrap_around (str "a" ++ chr "\" :: str "18" ++ str "z") =
    (fun r => str "a" ++
              encode_codepoint (radix_value is_digit 8 (str "18")) ++ r)
      <$> resolve wrap_around (str "z").
Proof.
  apply (proj1 (proj2 (octal_escape_accepts_decimal_digits wrap_around))
           (str "a") (str "18") (str "z") (chr "1") (str "8z")).
  - by repeat constructor.
  - repeat constructor; by eexists.
  - by vm_compute.
  - reflexivity.
  - reflexivity.
  - reflexivity.
  - reflexivity.
Defined.

Lemma hex_escape_out_of_range_dropped_witness :
  resolve wrap_around (str "a\xD800z") = Ok (str "az").
Proof.
  refine (proj2 (proj2 (proj2 (hex_escape_out_of_range_dropped wrap_around
            (str "a") (str "D800") (str "z") (chr "x") _ _ _ _ _))) (str "z") _).
  - by repeat constructor.
  - reflexivity.
  - repeat constructor; by eexists.
  - reflexivity.
  - left. by vm_compute.
  - reflexivity.
Defined.

Lemma resolve_escape_characters_witness :
  resolve_escape_sequence wrap_around
    (escape_characters (str "a" ++ [10; 9] ++ str "b") 4)
    (length (escape_characters (str "a" ++ [10; 9] ++ str "b") 4))
  = Ok (str "a" ++ [10; 9] ++ str "b").
Proof.
  apply (resolve_escape_characters wrap_around (str "a" ++ [10; 9] ++ str "b")).
  repeat constructor; by vm_compute.
Defined.

Lemma resolve_never_longer_witness :
  (length (str "A~") <= length (str "\x41\176"))%nat.
Proof.
  apply (resolve_never_longer wrap_around (str "\x41\176") (str "A~")).
  reflexivity.
Defined.

Lemma parse_number_longest_run_witness :
  exists run rest v,
    parse_hex_number wrap_around (str "x1Fg") 4 1 = Ok (v, (1 + length run)%nat) /\
    drop 1 (str "x1Fg") = run ++ rest /\
    Forall (fun c => is_Some (is_hex c)) run /\
    match rest with [] => True | c :: _ => is_hex c = None end /\
    (radix_value is_hex 16 run < 2 ^ 31 -> v = radix_value is_hex 16 run).
Proof.
  apply (proj1 (parse_number_longest_run wrap_around (str "x1Fg") 1
                  ltac:(cbn; lia))).
Defined.

Lemma resolve_copies_plain_text_witness :
  resolve_escape_sequence wrap_around (str "ab" ++ str "\n")
      (length (str "ab" ++ str "\n")) =
    (str "ab" ++.) <$> resolve_escape_sequence wrap_around (str "\n")
                         (length (str "\n")) /\
  resolve_escape_sequence wrap_around (str "ab") (length (str "ab"))
    = Ok (str "ab").
Proof.
  apply (resolve_copies_plain_text wrap_around (str "ab") (str "\n")).
  repeat constructor; by vm_compute.
Defined.

Lemma hex_escape_encodes_value_witness :
  resolve wrap_around (str "a" ++ chr "\" :: chr "x" :: str "20AC" ++ str "z") =
    (fun r => str "a" ++
              encode_codepoint (radix_value is_hex 16 (str "20AC")) ++ r)
      <$> resolve wrap_around (str "z").
Proof.
  refine (proj1 (proj2 (hex_escape_encodes_value wrap_around
            (str "a") (str "20AC") (str "z") (chr "x") _ _ _ _ _))).
  - repeat constructor; by vm_compute.
  - reflexivity.
  - repeat constructor; by eexists.
  - reflexivity.
  - by vm_compute.
Defined.
